(** * An image cache for React Native: [image-cache.js]

    A shallow embedding of the cache module: key derivation from a URI
    ([getImageInfo]), the single-URI and the batch download
    ([fetchImage], [preloadImage], [preloadImages]), the bookkeeping of
    the persisted mapping ([updateCacheMapping]) and the expiry sweep
    ([clearExpiredImage]).

    The module talks to three collaborators that it imports: the file
    system and HTTP client of rn-fetch-blob, the key-value store
    AsyncStorage, and the two pure helpers [validUrl.isUri] and
    [hash].  The pure helpers are section variables; the file system, the
    store and the clock are an explicit [world] threaded through every
    operation, and what the outside does on each request (HTTP answers,
    I/O failures) is read from an [env]. *)

From Stdlib Require Import ZArith QArith Ascii String List Lia Bool.
From stdpp Require Import gmap strings list fin_maps.

Local Open Scope Z_scope.

(** ** JavaScript string primitives

    Strings are sequences of code units; the three primitives below are
    the ones [getImageInfo] calls, always with a one-character needle. *)

Module JsString.

(** [s.indexOf(c)], counted from position [i] of the enclosing string. *)
Fixpoint indexOf_from (c : ascii) (s : string) (i : Z) : Z :=
  match s with
  | EmptyString => -1
  | String a s' => if Ascii.eqb a c then i else indexOf_from c s' (i + 1)
  end.

Definition indexOf (c : ascii) (s : string) : Z := indexOf_from c s 0.

(** [s.lastIndexOf(c)]: a left-to-right scan that remembers the last hit. *)
Fixpoint lastIndexOf_from (c : ascii) (s : string) (i acc : Z) : Z :=
  match s with
  | EmptyString => acc
  | String a s' =>
      lastIndexOf_from c s' (i + 1) (if Ascii.eqb a c then i else acc)
  end.

Definition lastIndexOf (c : ascii) (s : string) : Z :=
  lastIndexOf_from c s 0 (-1).

Definition clamp (n len : Z) : Z := Z.max 0 (Z.min n len).

(** [s.substring(a, b)]: both indices are clamped to [0, length] and
    swapped when out of order. *)
Definition substring2 (s : string) (a b : Z) : string :=
  let len := Z.of_nat (String.length s) in
  let a' := clamp a len in
  let b' := clamp b len in
  let lo := Z.min a' b' in
  let hi := Z.max a' b' in
  String.substring (Z.to_nat lo) (Z.to_nat (hi - lo)) s.

(** [s.substring(a)] *)
Definition substring1 (s : string) (a : Z) : string :=
  substring2 s a (Z.of_nat (String.length s)).

(** [arr.includes(x)] on an array of strings (strict equality). *)
Definition includes (arr : list string) (x : string) : bool :=
  existsb (String.eqb x) arr.

(** Occurrence of a character, used to state what the indices mean. *)
Fixpoint has (c : ascii) (s : string) : bool :=
  match s with
  | EmptyString => false
  | String a s' => Ascii.eqb a c || has c s'
  end.

(** [needle] occurs in [s] as a contiguous block. *)
Fixpoint contains (s needle : string) : bool :=
  String.prefix needle s
  || match s with
     | EmptyString => false
     | String _ s' => contains s' needle
     end.

End JsString.

Import JsString.

(** ** Constants *)

Definition validImageExtensions : list string :=
  [".jpg"; ".png"; ".jpeg"; ".gif"]%string.

Definition CACHE_STORAGE : string := "cache_image".

(** The names every object inherits from [Object.prototype]: a table made
    by [{}] or by [JSON.parse] answers a read of one of them with a
    function (with the prototype itself for [__proto__]) when it has no own
    property of that name. *)
Definition objectPrototypeKeys : list string :=
  ["constructor"; "hasOwnProperty"; "isPrototypeOf"; "propertyIsEnumerable";
   "toLocaleString"; "toString"; "valueOf"; "__proto__";
   "__defineGetter__"; "__defineSetter__"; "__lookupGetter__";
   "__lookupSetter__"]%string.

(** [(date1 - date2) / (24 * 60 * 60 * 1000)].  JavaScript divides in
    floating point; timestamps are integers, and the quotient is taken
    here as the exact rational.  The double and the rational give the same
    answer to the two questions the code asks of the gap when the
    threshold is a whole number of days: whether it exceeds the threshold
    (line 130) and whether it is zero (line 140).  What is proved of the
    comparison is stated for such thresholds. *)
Definition calculateDayGap (date1 date2 : Z) : Q :=
  Qdiv (inject_Z (date1 - date2)) (inject_Z (24 * 60 * 60 * 1000)).

(** [a > b] and the truthiness of a number. *)
Definition gt (a b : Q) : bool := negb (Qle_bool a b).
Definition truthy (a : Q) : bool := negb (Qeq_bool a 0).

(** ** Data model *)

(** An [Error] is represented by its message. *)
Definition error := string.

(** One record of the persisted mapping.  [fileInfo] is optional because
    [JSON.stringify] drops a property whose value is [undefined]. *)
Record entry := Entry { fileInfo : option string; created : Z }.

(** What AsyncStorage holds under [CACHE_STORAGE]: nothing, a string that
    [JSON.parse] refuses, or the serialised mapping.  The module writes
    nothing but serialised mappings under the key, so other JSON values
    ([null], numbers, arrays) are left out. *)
Inductive stored :=
| NoItem
| Garbled
| Json (t : gmap string entry).

Record world := World {
  files : gset string;   (* paths that hold a file *)
  storage : stored;
  clock : Z              (* Date.now() *)
}.

(** The answer of [RNFetchBlob.config({path}).fetch('GET', uri)]: a
    response, whose body has been written to [path] whatever its
    status, or a rejection, which may leave a partial file. *)
Inductive fetch_result :=
| Response (status : Z)
| TransportError (e : error) (partial : bool).

Record env := Env {
  network : string -> fetch_result;
  exists_fails : string -> bool;      (* fs.exists rejects on this path *)
  unlink_missing : option error;      (* fs.unlink of a path without file:
                                         resolves, or rejects with e *)
  getItem_error : option error;       (* AsyncStorage.getItem rejects *)
  setItem_error : option error        (* AsyncStorage.setItem rejects *)
}.

(** What a promise made with [new Promise] ends as; [Pending] is a
    promise whose executor never calls [resolve] nor [reject]. *)
Inductive outcome (A : Type) :=
| Resolved (a : A)
| Rejected (e : error)
| Pending.
Global Arguments Resolved {A} a.
Global Arguments Rejected {A} e.
Global Arguments Pending {A}.

(** What [await] gives for a request to a collaborator. *)
Inductive result (A : Type) :=
| Ok (a : A)
| Err (e : error).
Global Arguments Ok {A} a.
Global Arguments Err {A} e.

(** [{uri, imagePath}] *)
Record uriMap := UriMap { uri : string; imagePath : string }.

(** The argument a listener receives: [{uri, imagePath}], or the same
    object wrapped as [{uriMapObject}] (line 287). *)
Inductive cbarg :=
| Plain (m : uriMap)
| Wrapped (m : uriMap).

(** A listener returns, or throws an error. *)
Definition listener := cbarg -> option error.
Definition noListener : listener := fun _ => None.

(** The value [preloadImage] resolves with: [{uri, imagePath}] on a hit
    and [{uri, fileInfo}] after a download. *)
Record response := MkResponse {
  r_uri : string;
  r_imagePath : option string;
  r_fileInfo : option string
}.

Record preloadInfo := Info { tried : nat; downloaded : nat }.
Record preloadResult := PreloadResult {
  info : preloadInfo;
  cacheMapping : gmap string entry
}.

Inductive event :=
| FsExists (path : string)
| HttpGet (uri path : string)
| FsFlush (path : string)
| FsUnlink (path : string)
| StoreGet (key : string)
| StoreSet (key : string) (value : gmap string entry)
| ConsoleLog (msg : string)
| Called (arg : cbarg).

(** ** Effects: a state monad over the world that records a trace *)

Definition M (A : Type) : Type := world -> A * world * list event.

Definition ret {A} (a : A) : M A := fun w => (a, w, []).

Definition bind {A B} (m : M A) (k : A -> M B) : M B :=
  fun w =>
    let '(a, w1, t1) := m w in
    let '(b, w2, t2) := k a w1 in
    (b, w2, t1 ++ t2).

Definition emit (e : event) : M unit := fun w => (tt, w, [e]).

Fixpoint mapM {A B} (f : A -> M B) (l : list A) : M (list B) :=
  match l with
  | [] => ret []
  | a :: l' =>
      bind (f a) (fun b => bind (mapM f l') (fun bs => ret (b :: bs)))
  end.

Notation "'do' x <- m ; k" := (bind m (fun x => k))
  (at level 10, x binder, m at level 100, k at level 200, only parsing).
Notation "m ;; k" := (bind m (fun _ => k))
  (at level 100, k at level 200, right associativity, only parsing).

Definition outcome_of {A} (r : A * world * list event) : A := r.1.1.
Definition world_of {A} (r : A * world * list event) : world := r.1.2.
Definition trace_of {A} (r : A * world * list event) : list event := r.2.

(** ** The module *)

Module ImageCache.

Section Collaborators.

(** [validUrl.isUri], [hash] (object-hash) and [dirs.CacheDir] come from
    the imported packages. *)
Variable isUri : string -> bool.
Variable hash : string -> string.
Variable CacheDir : string.

(** *** Key derivation and paths *)

Definition getImageInfo (uri : string) : option string :=
  if isUri uri then
    let path := substring1 uri (lastIndexOf "/" uri) in
    let pathName :=
      if indexOf "?" path =? -1 then path
      else substring2 path 0 (indexOf "?" path) in
    if 0 <=? lastIndexOf "." pathName then
      let fileExtension := substring1 pathName (lastIndexOf "." pathName) in
      if includes validImageExtensions fileExtension then
        Some (hash uri +:+ "." +:+ substring1 fileExtension 1)
      else None
    else None
  else None.

Definition generateAbsolutePath (fileInfo : string) : string :=
  CacheDir +:+ "/" +:+ fileInfo.

(** *** Requests to the collaborators *)

Variable E : env.

Definition consoleLog (msg : string) : M unit := emit (ConsoleLog msg).

Definition dateNow : M Z := fun w => (clock w, w, []).

(** [RNFetchBlob.fs.exists(path)]; [None] when the request rejects. *)
Definition fsExists (path : string) : M (option bool) :=
  fun w =>
    (if exists_fails E path then None
     else Some (bool_decide (path ∈ files w)),
     w, [FsExists path]).

(** [RNFetchBlob.fs.unlink(path)] *)
Definition fsUnlink (path : string) : M (result unit) :=
  fun w =>
    if bool_decide (path ∈ files w) then
      (Ok tt,
       {| files := files w ∖ {[path]}; storage := storage w;
          clock := clock w |},
       [FsUnlink path])
    else
      (match unlink_missing E with Some e => Err e | None => Ok tt end,
       w, [FsUnlink path]).

(** [RNFetchBlob.config({fileCache: true, path}).fetch('GET', uri)] *)
Definition httpGet (uri path : string) : M fetch_result :=
  fun w =>
    let r := network E uri in
    let written :=
      match r with
      | Response _ => true
      | TransportError _ partial => partial
      end in
    (r,
     {| files := if written then files w ∪ {[path]} else files w;
        storage := storage w; clock := clock w |},
     [HttpGet uri path]).

(** [res.flush()] removes the file the response was written to. *)
Definition flush (path : string) : M unit :=
  fun w =>
    (tt,
     {| files := files w ∖ {[path]}; storage := storage w;
        clock := clock w |},
     [FsFlush path]).

(** [AsyncStorage.getItem(CACHE_STORAGE)] *)
Definition getItem : M (result stored) :=
  fun w =>
    (match getItem_error E with Some e => Err e | None => Ok (storage w) end,
     w, [StoreGet CACHE_STORAGE]).

(** [AsyncStorage.setItem(CACHE_STORAGE, JSON.stringify(t))] *)
Definition setItem (t : gmap string entry) : M (result unit) :=
  fun w =>
    match setItem_error E with
    | Some e => (Err e, w, [StoreSet CACHE_STORAGE t])
    | None =>
        (Ok tt,
         {| files := files w; storage := Json t; clock := clock w |},
         [StoreSet CACHE_STORAGE t])
    end.

(** A call of the listener: [None] when it returns, [Some e] when it
    throws [e]. *)
Definition call (callback : listener) (arg : cbarg) : M (option error) :=
  fun w => (callback arg, w, [Called arg]).

(** [Promise.all]: the first rejection wins, otherwise every promise has
    to resolve. *)
Fixpoint promiseAll {A} (ps : list (outcome A)) : outcome (list A) :=
  match ps with
  | [] => Resolved []
  | p :: ps' =>
      match p, promiseAll ps' with
      | Rejected e, _ => Rejected e
      | _, Rejected e => Rejected e
      | Resolved a, Resolved l => Resolved (a :: l)
      | _, _ => Pending
      end
  end.

(** *** The mapping store *)

Definition getCurrentCacheMappingFromAsyncStorage
  : M (result (gmap string entry)) :=
  do value <- getItem;
  match value with
  | Err e => ret (Err e)
  | Ok NoItem => ret (Ok ∅)
  | Ok Garbled =>
      consoleLog "Cannot parse cacheMapping, the cache is reset" ;;
      ret (Ok ∅)
  | Ok (Json t) => ret (Ok t)
  end.

(** The test [if (cacheMapping[uri])] of line 311: an entry of the table
    is an object, hence truthy, and so is what [Object.prototype] holds
    under an inherited name. *)
Definition truthyAt (cacheMapping : gmap string entry) (uri : string)
  : bool :=
  match cacheMapping !! uri with
  | Some _ => true
  | None => bool_decide (uri ∈ objectPrototypeKeys)
  end.

Definition updateCacheMapping (uri fileInfo : string)
  : M (outcome (gmap string entry)) :=
  do read <- getCurrentCacheMappingFromAsyncStorage;
  match read with
  | Err e => ret (Rejected e)
  | Ok cacheMapping =>
      if truthyAt cacheMapping uri then ret (Resolved cacheMapping)
      else
          do now <- dateNow;
          let cacheMapping' :=
            <[uri := {| fileInfo := Some fileInfo; created := now |}]>
              cacheMapping in
          do written <- setItem cacheMapping';
          match written with
          | Ok _ => ret (Resolved cacheMapping')
          | Err error => ret (Rejected error)
          end
  end.

(** *** Single-URI operations *)

Definition getImagePath (fileInfo : string) : M (option string) :=
  let imagePath := generateAbsolutePath fileInfo in
  do isDownloaded <- fsExists imagePath;
  match isDownloaded with
  | Some true => ret (Some imagePath)
  | Some false => ret None
  | None => ret None
  end.

(** [res.flush(); throw new Error(...)]: the value is the error thrown. *)
Definition throwErrorOnInCompletedImageFetch (uri path : string) : M error :=
  flush path ;;
  ret ("cannot preload image: " +:+ uri).

(** The [catch (e)] block that closes [fetchImage] and [preloadImage]. *)
Definition onError {A} (fileInfo : option string) (e : error)
  : M (outcome A) :=
  do unlinked <-
    match fileInfo with
    | Some fi => fsUnlink (generateAbsolutePath fi)
    | None => ret (Ok tt)
    end;
  consoleLog e ;;
  match unlinked with
  | Ok _ => ret tt
  | Err _ => consoleLog "cannot unlink"
  end ;;
  ret (Rejected e).

Definition fetchImage (uri : string) (callback : listener)
  : M (outcome uriMap) :=
  let fileInfo := getImageInfo uri in
  match fileInfo with
  | None => onError fileInfo ("wrong file format: " +:+ uri)
  | Some fi =>
      do imagePath <- getImagePath fi;
      match imagePath with
      | Some imagePath =>
          let hit := {| uri := uri; imagePath := imagePath |} in
          do thrown <- call callback (Plain hit);
          match thrown with
          | Some e => onError fileInfo e
          | None => ret (Resolved hit)
          end
      | None =>
          let path := generateAbsolutePath fi in
          do res <- httpGet uri path;
          match res with
          | TransportError e _ => onError fileInfo e
          | Response status =>
              if status =? 200 then
                let uriMapObject := {| uri := uri; imagePath := path |} in
                do thrown <- call callback (Plain uriMapObject);
                match thrown with
                | Some e => onError fileInfo e
                | None =>
                    (* resolve(uriMapObject) has been called here *)
                    do saved <- updateCacheMapping uri fi;
                    match saved with
                    | Rejected e => consoleLog e
                    | _ => ret tt
                    end ;;
                    ret (Resolved uriMapObject)
                end
              else
                do e <- throwErrorOnInCompletedImageFetch uri path;
                onError fileInfo e
          end
      end
  end.

(** [preloadImage] from the answer of its probe on: what the executor
    does after [await getImagePath(fileInfo)], lines 273-303. *)
Definition preloadImageResume (uri : string) (callback : listener)
    (fi : string) (imagePath : option string) : M (outcome response) :=
  let fileInfo := Some fi in
  match imagePath with
  | Some imagePath =>
      do thrown <-
        call callback (Plain {| uri := uri; imagePath := imagePath |});
      match thrown with
      | Some e => onError fileInfo e
      | None =>
          ret (Resolved {| r_uri := uri; r_imagePath := Some imagePath;
                           r_fileInfo := None |})
      end
  | None =>
      let path := generateAbsolutePath fi in
      do res <- httpGet uri path;
      match res with
      | TransportError e _ => onError fileInfo e
      | Response status =>
          if status =? 200 then
            let uriMapObject := {| uri := uri; imagePath := path |} in
            do thrown <- call callback (Wrapped uriMapObject);
            match thrown with
            | Some e => onError fileInfo e
            | None =>
                ret (Resolved {| r_uri := uri; r_imagePath := None;
                                 r_fileInfo := Some fi |})
            end
          else
            do e <- throwErrorOnInCompletedImageFetch uri path;
            onError fileInfo e
      end
  end.

Definition preloadImage (uri : string) (callback : listener)
  : M (outcome response) :=
  let fileInfo := getImageInfo uri in
  match fileInfo with
  | None => onError fileInfo ("wrong file format: " +:+ uri)
  | Some fi =>
      do imagePath <- getImagePath fi;
      preloadImageResume uri callback fi imagePath
  end.

(** *** The batch *)

(** A per-URI operation of the batch when its executor has run up to its
    first [await]: it has rejected already, for want of a key, or it has
    issued its probe and awaits the answer. *)
Inductive started :=
| Refused (o : outcome response)
| Probing (uri fileInfo : string) (imagePath : option string).

(** [preloadImage], up to the first [await] (lines 266-272). *)
Definition preloadImageStart (uri : string) : M started :=
  let fileInfo := getImageInfo uri in
  match fileInfo with
  | None =>
      do o <- onError fileInfo ("wrong file format: " +:+ uri);
      ret (Refused o)
  | Some fi =>
      do imagePath <- getImagePath fi;
      ret (Probing uri fi imagePath)
  end.

(** [preloadImage], from the first [await] on. *)
Definition preloadImageFinish (callback : listener) (s : started)
  : M (outcome response) :=
  match s with
  | Refused o => ret o
  | Probing uri fi imagePath => preloadImageResume uri callback fi imagePath
  end.

(** [promise.catch((e) => { console.log(e) })], the wrapper [loadImage]
    puts around [preloadImage(uri, callback)]. *)
Definition loadImage (promise : M (outcome response))
  : M (outcome (option response)) :=
  do r <- promise;
  match r with
  | Resolved v => ret (Resolved (Some v))
  | Rejected e => consoleLog e ;; ret (Resolved None)
  | Pending => ret Pending
  end.

(** [Promise.all(uris.map(loadImage))].  The call [uris.map(loadImage)]
    runs every executor up to its first [await]: every probe is issued,
    and answered from the disk as it is then, before any download starts.
    The operations are then carried on one after the other in the order of
    the array, which is one of the orders in which the answers may
    arrive. *)
Definition downloadImages (uris : list string) (callback : listener)
  : M (outcome (list (option response))) :=
  do begun <- mapM preloadImageStart uris;
  do promises <-
    mapM (fun s => loadImage (preloadImageFinish callback s)) begun;
  ret (promiseAll promises).

(** The body of [responses.forEach]: the table and the counter.  The
    property assigned, [response.uri], is a URI that [getImageInfo]
    accepted, so it is none of the names of [Object.prototype]. *)
Definition recordResponse (current : Z)
    (acc : gmap string entry * nat) (r : option response)
  : gmap string entry * nat :=
  match r with
  | Some r =>
      (<[r_uri r := {| fileInfo := r_fileInfo r; created := current |}]>
         acc.1,
       S acc.2)
  | None => acc
  end.

(** [uris] is a list, so the [Array.isArray] guard of line 21 passes. *)
Definition preloadImages (uris : list string) (listener : listener)
  : M (outcome preloadResult) :=
  do responses <- downloadImages uris listener;
  match responses with
  | Rejected error => ret (Rejected error)
  | Pending => ret Pending
  | Resolved responses =>
      do read <- getCurrentCacheMappingFromAsyncStorage;
      match read with
      | Err error => ret (Rejected error)
      | Ok cacheMapping =>
          do current <- dateNow;
          let acc :=
            fold_left (recordResponse current) responses
              (cacheMapping, 0%nat) in
          let info := {| tried := length uris; downloaded := acc.2 |} in
          (* not awaited: a rejection of setItem is not caught *)
          setItem acc.1 ;;
          ret (Resolved {| info := info; cacheMapping := acc.1 |})
      end
  end.

(** *** The expiry sweep *)

(** String concatenation with a property that may be [undefined]. *)
Definition jsToString (v : option string) : string :=
  default "undefined"%string v.

Definition deleteExpiredImage (now : Z) (expiredPeriod : Q) (item : entry)
  : M (outcome unit) :=
  if gt (calculateDayGap now (created item)) expiredPeriod then
    do r <- fsUnlink (generateAbsolutePath (jsToString (fileInfo item)));
    match r with
    | Ok _ => ret (Resolved tt)
    | Err e => ret (Rejected e)
    end
  else ret (Resolved tt).

(** The [forEach] over [Object.keys(cacheMapping)] of lines 139-143. *)
Definition dropEntries (now : Z) (cacheMapping : gmap string entry)
  : gmap string entry :=
  filter (fun kv => truthy (calculateDayGap now (created kv.2)) = false)
    cacheMapping.

(** The executor returns the chain [Promise.all(...).then(...)] instead of
    awaiting it, so a rejection inside the chain reaches neither the
    [catch] block nor [reject]. *)
Definition clearExpiredImage (expiredPeriod : Q) : M (outcome string) :=
  do value <- getItem;
  match value with
  | Err e => ret (Rejected e)
  | Ok NoItem => ret Pending
  | Ok Garbled => ret (Rejected "SyntaxError")
  | Ok (Json cacheMapping) =>
      do now <- dateNow;
      do deleted <-
        mapM (deleteExpiredImage now expiredPeriod)
          (map snd (map_to_list cacheMapping));
      match promiseAll deleted with
      | Resolved _ =>
          do written <- setItem (dropEntries now cacheMapping);
          match written with
          | Ok _ => ret (Resolved "removed expired images from cache")
          | Err e => ret (Rejected e)
          end
      | _ => ret Pending
      end
  end.

Definition defaultExpiredPeriod : Q := inject_Z 30.

(** *** The mapping, with absolute paths *)

(** The body of the [forEach] over [Object.keys(cacheMapping)] of lines
    173-178.  The assignment [absoluteCacheMapping[uri] = path] adds or
    replaces an own property, except under the name [__proto__], where it
    runs the setter of [Object.prototype], which ignores a string. *)
Definition absolutePathOf (uri : string) (mappingObject : entry)
    (absoluteCacheMapping : gmap string string) : gmap string string :=
  if String.eqb uri "__proto__" then absoluteCacheMapping
  else
    <[uri := generateAbsolutePath (jsToString (fileInfo mappingObject))]>
      absoluteCacheMapping.

(** An [async] function whose whole body is inside [try]: the promise
    always resolves, with [{}] after the error has been logged. *)
Definition constructCacheMappingFromAsyncStorage : M (gmap string string) :=
  do value <- getItem;
  match value with
  | Err error => consoleLog error ;; ret ∅
  | Ok NoItem => ret ∅
  | Ok Garbled => consoleLog "SyntaxError" ;; ret ∅
  | Ok (Json cacheMapping) => ret (map_fold absolutePathOf ∅ cacheMapping)
  end.

End Collaborators.

End ImageCache.

Import ImageCache.

(** ** The module on Expo's file system: [src/image-cache.js] of the package

    The second version of the module keeps no mapping: it uses
    [FileSystem.getInfoAsync], [FileSystem.downloadAsync] and
    [FileSystem.deleteAsync] and nothing of AsyncStorage.  Its
    [getImageInfo] is the one above, line for line.  The probe and the
    download are the requests [fsExists] and [httpGet] of the world, and the
    events [FsExists], [HttpGet] and [FsUnlink] stand for the three calls. *)

Module Expo.

Section Collaborators.

Variable isUri : string -> bool.
Variable hash : string -> string.
(** [FileSystem.cacheDirectory] *)
Variable cacheDirectory : string.
Variable E : env.

Definition generateAbsolutePath (fileInfo : string) : string :=
  cacheDirectory +:+ fileInfo.

(** [FileSystem.deleteAsync(fileUri, { idempotent: true })], not awaited:
    a missing file is not an error. *)
Definition deleteAsync (fileUri : string) : M unit :=
  fun w =>
    (tt,
     {| files := files w ∖ {[fileUri]}; storage := storage w;
        clock := clock w |},
     [FsUnlink fileUri]).

Definition getImagePath (fileInfo : string) : M (option string) :=
  let imagePath := generateAbsolutePath fileInfo in
  do isDownloaded <- fsExists E imagePath;
  match isDownloaded with
  | Some true => ret (Some imagePath)
  | Some false => ret None
  | None => ret None
  end.

(** [FileSystem.deleteAsync(...); throw new Error(...)]: the value is the
    error thrown. *)
Definition throwErrorOnInCompletedImageFetch (uri fileUri : string)
  : M error :=
  deleteAsync fileUri ;;
  ret ("cannot preload image: " +:+ uri).

(** The inner [try] around the download catches what is thrown in it, the
    error of the status branch included, and throws the error of
    [throwErrorOnInCompletedImageFetch] in its place; the outer [catch]
    only rejects. *)
Definition fetchImage (uri : string) (callback : listener)
  : M (outcome uriMap) :=
  let fileInfo := getImageInfo isUri hash uri in
  match fileInfo with
  | None => ret (Rejected ("wrong file format: " +:+ uri))
  | Some fi =>
      do imagePath <- getImagePath fi;
      match imagePath with
      | Some imagePath =>
          let hit := {| uri := uri; imagePath := imagePath |} in
          do thrown <- call callback (Plain hit);
          match thrown with
          | Some e => ret (Rejected e)
          | None => ret (Resolved hit)
          end
      | None =>
          let fileUri := generateAbsolutePath fi in
          do res <- httpGet E uri fileUri;
          match res with
          | TransportError _ _ =>
              do e <- throwErrorOnInCompletedImageFetch uri fileUri;
              ret (Rejected e)
          | Response status =>
              if status =? 200 then
                let uriMapObject := {| uri := uri; imagePath := fileUri |} in
                do thrown <- call callback (Plain uriMapObject);
                match thrown with
                | Some _ =>
                    do e <- throwErrorOnInCompletedImageFetch uri fileUri;
                    ret (Rejected e)
                | None => ret (Resolved uriMapObject)
                end
              else
                throwErrorOnInCompletedImageFetch uri fileUri ;;
                do e <- throwErrorOnInCompletedImageFetch uri fileUri;
                ret (Rejected e)
          end
      end
  end.

(** [preloadImage] from the answer of its probe on. *)
Definition preloadImageResume (uri : string) (callback : listener)
    (fi : string) (imagePath : option string) : M (outcome response) :=
  match imagePath with
  | Some imagePath =>
      do thrown <-
        call callback (Plain {| uri := uri; imagePath := imagePath |});
      match thrown with
      | Some e => ret (Rejected e)
      | None =>
          ret (Resolved {| r_uri := uri; r_imagePath := Some imagePath;
                           r_fileInfo := None |})
      end
  | None =>
      let fileUri := generateAbsolutePath fi in
      do res <- httpGet E uri fileUri;
      match res with
      | TransportError _ _ =>
          do e <- throwErrorOnInCompletedImageFetch uri fileUri;
          ret (Rejected e)
      | Response status =>
          if status =? 200 then
            let uriMapObject := {| uri := uri; imagePath := fileUri |} in
            do thrown <- call callback (Wrapped uriMapObject);
            match thrown with
            | Some _ =>
                do e <- throwErrorOnInCompletedImageFetch uri fileUri;
                ret (Rejected e)
            | None =>
                ret (Resolved {| r_uri := uri; r_imagePath := None;
                                 r_fileInfo := Some fi |})
            end
          else
            throwErrorOnInCompletedImageFetch uri fileUri ;;
            do e <- throwErrorOnInCompletedImageFetch uri fileUri;
            ret (Rejected e)
      end
  end.

Definition preloadImage (uri : string) (callback : listener)
  : M (outcome response) :=
  let fileInfo := getImageInfo isUri hash uri in
  match fileInfo with
  | None => ret (Rejected ("wrong file format: " +:+ uri))
  | Some fi =>
      do imagePath <- getImagePath fi;
      preloadImageResume uri callback fi imagePath
  end.

(** A per-URI operation of the batch at its first [await]: rejected for
    want of a key, or waiting for the answer of its probe. *)
Inductive started :=
| Refused (o : outcome response)
| Probing (uri fileInfo : string) (imagePath : option string).

Definition preloadImageStart (uri : string) : M started :=
  let fileInfo := getImageInfo isUri hash uri in
  match fileInfo with
  | None => ret (Refused (Rejected ("wrong file format: " +:+ uri)))
  | Some fi =>
      do imagePath <- getImagePath fi;
      ret (Probing uri fi imagePath)
  end.

Definition preloadImageFinish (callback : listener) (s : started)
  : M (outcome response) :=
  match s with
  | Refused o => ret o
  | Probing uri fi imagePath => preloadImageResume uri callback fi imagePath
  end.

(** [promise.catch((e) => { console.log(e) })] *)
Definition loadImage (promise : M (outcome response))
  : M (outcome (option response)) :=
  do r <- promise;
  match r with
  | Resolved v => ret (Resolved (Some v))
  | Rejected e => consoleLog e ;; ret (Resolved None)
  | Pending => ret Pending
  end.

(** [Promise.all(uris.map(loadImage))]: as in the root module, every probe
    is issued before any download starts. *)
Definition downloadImages (uris : list string) (callback : listener)
  : M (outcome (list (option response))) :=
  do begun <- mapM preloadImageStart uris;
  do promises <-
    mapM (fun s => loadImage (preloadImageFinish callback s)) begun;
  ret (promiseAll promises).

(** The body of [responses.forEach]: the counter alone. *)
Definition countResponse (n : nat) (r : option response) : nat :=
  match r with Some _ => S n | None => n end.

(** [{info}] *)
Record preloadSummary := Summary { summary : preloadInfo }.

Definition preloadImages (uris : list string) (listener : listener)
  : M (outcome preloadSummary) :=
  do responses <- downloadImages uris listener;
  match responses with
  | Rejected error => ret (Rejected error)
  | Pending => ret Pending
  | Resolved responses =>
      let info :=
        {| tried := length uris;
           downloaded := fold_left countResponse responses 0%nat |} in
      ret (Resolved {| summary := info |})
  end.

End Collaborators.

End Expo.


(** ** Key derivation as the specification words it

    The segment after the last [/], cut at the first [?]; the extension is
    what follows the last [.] of that name.  These are written by recursion
    on the string, without indices, to be compared with [getImageInfo]. *)

Module KeySpec.

(** What follows the last [c] of [s]; all of [s] when [c] does not occur. *)
Fixpoint afterLast (c : ascii) (s : string) : string :=
  match s with
  | EmptyString => EmptyString
  | String a s' =>
      if has c s' then afterLast c s'
      else if Ascii.eqb a c then s' else s
  end.

(** What precedes the first [c] of [s]; all of [s] when [c] does not
    occur. *)
Fixpoint beforeFirst (c : ascii) (s : string) : string :=
  match s with
  | EmptyString => EmptyString
  | String a s' =>
      if Ascii.eqb a c then EmptyString else String a (beforeFirst c s')
  end.

Definition lastSegment (uri : string) : string :=
  beforeFirst "?" (afterLast "/" uri).

Definition recognized : list string := ["jpg"; "png"; "jpeg"; "gif"]%string.

Definition deriveKey (isUri : string -> bool) (hash : string -> string)
    (uri : string) : option string :=
  if isUri uri && has "." (lastSegment uri)
     && bool_decide (afterLast "." (lastSegment uri) ∈ recognized)
  then Some (hash uri +:+ "." +:+ afterLast "." (lastSegment uri))
  else None.

End KeySpec.

(** ** Reading a run *)

(** Requests that reach the network or the file system. *)
Definition isFetch (e : event) : bool :=
  match e with HttpGet _ _ => true | _ => false end.

Definition isRequest (e : event) : bool :=
  match e with
  | FsExists _ | HttpGet _ _ | FsFlush _ | FsUnlink _ => true
  | _ => false
  end.

Definition isStoreSet (e : event) : bool :=
  match e with StoreSet _ _ => true | _ => false end.

Definition fetches (t : list event) : nat := length (filter isFetch t).

(** An error identifies a URI when its message quotes it. *)
Definition identifies (e : error) (uri : string) : Prop :=
  contains e uri = true.

Definition isResolved {A} (o : outcome A) : bool :=
  match o with Resolved _ => true | _ => false end.

Definition resolvedCount {A} (os : list (outcome A)) : nat :=
  length (filter isResolved os).

(** What the batch keeps of a per-URI promise: its value, or [undefined]
    after the rejection has been caught and logged. *)
Definition settledValue {A} (o : outcome A) : option A :=
  match o with Resolved v => Some v | _ => None end.

Definition swallow {A} (o : outcome A) : outcome (option A) :=
  match o with
  | Resolved v => Resolved (Some v)
  | Rejected _ => Resolved None
  | Pending => Pending
  end.

(** Every outcome of [m] satisfies [Q]. *)
Definition always {A} (Q : A -> Prop) (m : M A) : Prop :=
  forall w, Q (outcome_of (m w)).

(** The value of [m] does not depend on the world [m] starts from. *)
Definition steady {A} (m : M A) : Prop :=
  forall w w', outcome_of (m w) = outcome_of (m w').

(** ** Frame conditions *)

(** [m] keeps the property [P] of the world. *)
Definition preserves {A} (P : world -> Prop) (m : M A) : Prop :=
  forall w, P w -> P (world_of (m w)).

(** [m] leaves the store alone. *)
Definition keeps_storage {A} (m : M A) : Prop :=
  forall w, storage (world_of (m w)) = storage w.

(** The world once the response of a download has been written to [path]. *)
Definition written (path : string) (w : world) : world :=
  {| files := files w ∪ {[path]}; storage := storage w; clock := clock w |}.

(** A failed way through [fetchImage]: the rejection, no file left at the
    path of the key, and exactly one download asked for. *)
Definition failedRun (CacheDir fi : string) (e : error)
    (run : outcome uriMap * world * list event) : Prop :=
  outcome_of run = Rejected e /\
  (generateAbsolutePath CacheDir fi ∉ files (world_of run)) /\
  fetches (trace_of run) = 1%nat.

(** ** The failed download as the specification states it

    After a download that does not end with status 200, no file is left at
    the path of the key and the rejection identifies the URI. *)
Definition failedDownloadCarriesUri (isUri : string -> bool)
    (hash : string -> string) (CacheDir : string) : Prop :=
  forall (E : env) (uri : string) (callback : listener) (w : world)
         (fi : string),
    getImageInfo isUri hash uri = Some fi ->
    outcome_of (getImagePath CacheDir E fi w) = None ->
    network E uri <> Response 200 ->
    let run := fetchImage isUri hash CacheDir E uri callback w in
    (generateAbsolutePath CacheDir fi ∉ files (world_of run)) /\
    exists e, outcome_of run = Rejected e /\ identifies e uri.

(** ** Two calls in sequence as the specification states them

    Whenever the first of two calls for a URI resolves, the second call,
    started in the world the first one leaves, is a hit: it resolves with
    the same value without a download, and the two calls ask for at most
    one download. *)
Definition secondCallIsHit (isUri : string -> bool)
    (hash : string -> string) (CacheDir : string) : Prop :=
  forall (E : env) (uri : string) (callback : listener) (w : world)
         (r1 : uriMap),
    let run1 := fetchImage isUri hash CacheDir E uri callback w in
    let run2 :=
      fetchImage isUri hash CacheDir E uri callback (world_of run1) in
    outcome_of run1 = Resolved r1 ->
    outcome_of run2 = Resolved r1 /\
    fetches (trace_of run2) = 0%nat /\
    (fetches (trace_of run1 ++ trace_of run2) <= 1)%nat.

(** ** The table behind a stored item

    What [getCurrentCacheMappingFromAsyncStorage] makes of the item: the
    parsed mapping, and the empty one when there is no item or when it does
    not parse. *)
Definition currentTable (s : stored) : gmap string entry :=
  match s with
  | Json t => t
  | NoItem | Garbled => ∅
  end.

(** The lines the read logs on its way. *)
Definition readLog (s : stored) : list event :=
  match s with
  | Garbled => [ConsoleLog "Cannot parse cacheMapping, the cache is reset"]
  | _ => []
  end.

(** Every event of every run of [m] satisfies [Q]. *)
Definition emits {A} (Q : event -> Prop) (m : M A) : Prop :=
  forall w, Forall Q (trace_of (m w)).

(** Requests to AsyncStorage. *)
Definition isStoreRequest (e : event) : bool :=
  match e with StoreGet _ | StoreSet _ _ => true | _ => false end.

(** ** Reading the sweep *)

(** The test of line 130 and the path it unlinks. *)
Definition expired (now : Z) (expiredPeriod : Q) (item : entry) : bool :=
  gt (calculateDayGap now (created item)) expiredPeriod.

Definition artifactOf (CacheDir : string) (item : entry) : string :=
  generateAbsolutePath CacheDir (jsToString (fileInfo item)).

(** ** Sample collaborators and worlds *)

Module Sample.

(** Stand-ins for the imported helpers: a scheme test for [validUrl.isUri]
    and an injective function for the digest. *)
Definition isUri (s : string) : bool := String.prefix "http" s.
Definition hash (s : string) : string := "k" +:+ s.
Definition CacheDir : string := "/cache".

Definition good : string := "http://a.io/good.png".
Definition wrong : string := "http://a.io/readme.txt".
Definition down : string := "http://a.io/down.jpg".
Definition gone : string := "http://a.io/gone.gif".

Definition goodKey : string := "khttp://a.io/good.png.png".
Definition goodPath : string := "/cache/khttp://a.io/good.png.png".

(** [good] answers 200, [down] times out after a partial write, anything
    else answers 404. *)
Definition answers (u : string) : fetch_result :=
  if String.eqb u good then Response 200
  else if String.eqb u down then TransportError "timed out" true
  else Response 404.

Definition online : env :=
  {| network := answers;
     exists_fails := fun _ => false;
     unlink_missing := Some "ENOENT"%string;
     getItem_error := None;
     setItem_error := None |}.

(** The same, with a store that refuses every write. *)
Definition storeFull : env :=
  {| network := answers;
     exists_fails := fun _ => false;
     unlink_missing := Some "ENOENT"%string;
     getItem_error := None;
     setItem_error := Some "disk full"%string |}.

Definition day : Z := 24 * 60 * 60 * 1000.
Definition today : Z := 1700000000000.

(** Nothing cached, nothing stored. *)
Definition fresh : world :=
  {| files := ∅; storage := NoItem; clock := today |}.

(** [good] was cached yesterday. *)
Definition yesterday : entry :=
  {| fileInfo := Some goodKey; created := today - day |}.

Definition cached : world :=
  {| files := {[goodPath]};
     storage := Json {[good := yesterday]};
     clock := today |}.

(** The entry of [good] is forty days old and its artifact is missing. *)
Definition stale : world :=
  {| files := ∅;
     storage := Json {[good := {| fileInfo := Some goodKey;
                                  created := today - 40 * day |}]};
     clock := today |}.

End Sample.

(** ** More sample collaborators and worlds *)

Module Cases.

(** A listener that throws on every call. *)
Definition grumpy : listener := fun _ => Some "listener failed"%string.

(** A listener that throws when it is handed [{uri, imagePath}], what the
    batch calls it with on a hit, and returns otherwise. *)
Definition picky : listener :=
  fun arg =>
    match arg with
    | Plain _ => Some "listener failed"%string
    | Wrapped _ => None
    end.

(** [Sample.online] on a platform whose [unlink] resolves for a missing
    file. *)
Definition lenient : env :=
  {| network := Sample.answers;
     exists_fails := fun _ => false;
     unlink_missing := None;
     getItem_error := None;
     setItem_error := None |}.

(** [Sample.online] on a platform whose existence probe rejects. *)
Definition blind : env :=
  {| network := Sample.answers;
     exists_fails := fun _ => true;
     unlink_missing := Some "ENOENT"%string;
     getItem_error := None;
     setItem_error := None |}.

Definition otherPath : string := "/cache/notes.txt".
Definition otherUri : string := "http://a.io/other.png".

Definition old : entry :=
  {| fileInfo := Some Sample.goodKey;
     created := Sample.today - 40 * Sample.day |}.

(** The entry of [good] is forty days old, its artifact and another file
    are on disk. *)
Definition overdue : world :=
  {| files := {[Sample.goodPath; otherPath]};
     storage := Json {[Sample.good := old]};
     clock := Sample.today |}.

(** The item under the key does not parse. *)
Definition garbled : world :=
  {| files := {[Sample.goodPath]}; storage := Garbled;
     clock := Sample.today |}.

(** [FileSystem.cacheDirectory] ends with a slash. *)
Definition cacheDirectory : string := "/cache/".

End Cases.

(** * Properties *)

(** ** Strings *)

Section StringFacts.

Import KeySpec.

Lemma length_append (s t : string) :
  String.length (s +:+ t) = (String.length s + String.length t)%nat.
Proof. induction s as [|a s IH]; simpl; [reflexivity | now rewrite IH]. Qed.

Lemma substring_zero_all (s : string) :
  String.substring 0 (String.length s) s = s.
Proof. induction s as [|a s IH]; simpl; [reflexivity | now rewrite IH]. Qed.

Lemma substring_skip (pre s : string) :
  String.substring (String.length pre) (String.length s) (pre +:+ s) = s.
Proof.
  induction pre as [|a pre IH]; simpl; [apply substring_zero_all | exact IH].
Qed.

Lemma substring_take (pre s : string) :
  String.substring 0 (String.length pre) (pre +:+ s) = pre.
Proof.
  induction pre as [|a pre IH]; simpl.
  - now destruct s.
  - now rewrite IH.
Qed.

(** [substring(a)] drops a prefix of length [a]. *)
Lemma substring1_skip (pre s : string) :
  substring1 (pre +:+ s) (Z.of_nat (String.length pre)) = s.
Proof.
  unfold substring1, substring2, clamp. rewrite length_append.
  set (p := String.length pre). set (n := String.length s).
  replace (Z.min (Z.max 0 (Z.min (Z.of_nat p) (Z.of_nat (p + n))))
             (Z.max 0 (Z.min (Z.of_nat (p + n)) (Z.of_nat (p + n)))))
    with (Z.of_nat p) by lia.
  replace (Z.max (Z.max 0 (Z.min (Z.of_nat p) (Z.of_nat (p + n))))
             (Z.max 0 (Z.min (Z.of_nat (p + n)) (Z.of_nat (p + n))))
           - Z.of_nat p)
    with (Z.of_nat n) by lia.
  rewrite !Nat2Z.id. apply substring_skip.
Qed.

(** A negative start is clamped to the beginning. *)
Lemma substring1_neg (s : string) (a : Z) : a <= 0 -> substring1 s a = s.
Proof.
  intros Ha. unfold substring1, substring2, clamp.
  set (n := String.length s).
  replace (Z.min (Z.max 0 (Z.min a (Z.of_nat n)))
             (Z.max 0 (Z.min (Z.of_nat n) (Z.of_nat n)))) with 0 by lia.
  replace (Z.max (Z.max 0 (Z.min a (Z.of_nat n)))
             (Z.max 0 (Z.min (Z.of_nat n) (Z.of_nat n))) - 0)
    with (Z.of_nat n) by lia.
  rewrite Nat2Z.id. apply substring_zero_all.
Qed.

(** [substring(0, b)] keeps a prefix of length [b]. *)
Lemma substring2_take (pre s : string) :
  substring2 (pre +:+ s) 0 (Z.of_nat (String.length pre)) = pre.
Proof.
  unfold substring2, clamp. rewrite length_append.
  set (p := String.length pre). set (n := String.length s).
  replace (Z.min (Z.max 0 (Z.min 0 (Z.of_nat (p + n))))
             (Z.max 0 (Z.min (Z.of_nat p) (Z.of_nat (p + n))))) with 0 by lia.
  replace (Z.max (Z.max 0 (Z.min 0 (Z.of_nat (p + n))))
             (Z.max 0 (Z.min (Z.of_nat p) (Z.of_nat (p + n)))) - 0)
    with (Z.of_nat p) by lia.
  rewrite Nat2Z.id. apply substring_take.
Qed.

Lemma prefix_refl (s : string) : String.prefix s s = true.
Proof.
  induction s as [|a s IH]; cbn; [reflexivity |].
  now destruct (ascii_dec a a).
Qed.

(** A message that ends with [s] quotes [s]. *)
Lemma contains_append (pre s : string) : contains (pre +:+ s) s = true.
Proof.
  induction pre as [|a pre IH].
  - change (EmptyString +:+ s) with s.
    destruct s as [|b s]; [reflexivity |].
    cbn [contains]. now rewrite prefix_refl.
  - change (String a pre +:+ s) with (String a (pre +:+ s)).
    cbn [contains]. rewrite IH. apply orb_true_r.
Qed.

(** *** What the index functions compute *)

Lemma afterLast_absent c s : has c s = false -> afterLast c s = s.
Proof.
  destruct s as [|a s]; simpl; [reflexivity |].
  intros H. apply orb_false_iff in H as [Ha Hs]. now rewrite Hs, Ha.
Qed.

Lemma afterLast_clean c s : has c (afterLast c s) = false.
Proof.
  induction s as [|a s IH]; simpl; [reflexivity |].
  destruct (has c s) eqn:Hs; [exact IH |].
  destruct (Ascii.eqb a c) eqn:Ha; [exact Hs |].
  simpl. now rewrite Ha, Hs.
Qed.

Lemma afterLast_split c s :
  has c s = true -> exists pre, s = pre +:+ String c (afterLast c s).
Proof.
  induction s as [|a s IH]; simpl; [discriminate |].
  destruct (has c s) eqn:Hs.
  - intros _. destruct (IH eq_refl) as [pre Hpre].
    exists (String a pre).
    change (String a s = String a (pre +:+ String c (afterLast c s))).
    now f_equal.
  - rewrite orb_false_r. intros Ha. rewrite Ha.
    apply Ascii.eqb_eq in Ha as ->. now exists EmptyString.
Qed.

Lemma beforeFirst_absent c s : has c s = false -> beforeFirst c s = s.
Proof.
  induction s as [|a s IH]; simpl; [reflexivity |].
  intros H. apply orb_false_iff in H as [Ha Hs]. now rewrite Ha, IH.
Qed.

Lemma beforeFirst_clean c s : has c (beforeFirst c s) = false.
Proof.
  induction s as [|a s IH]; simpl; [reflexivity |].
  destruct (Ascii.eqb a c) eqn:Ha; simpl; [reflexivity |].
  now rewrite Ha, IH.
Qed.

Lemma beforeFirst_split c s :
  has c s = true -> exists post, s = beforeFirst c s +:+ String c post.
Proof.
  induction s as [|a s IH]; simpl; [discriminate |].
  destruct (Ascii.eqb a c) eqn:Ha.
  - intros _. apply Ascii.eqb_eq in Ha as ->. now exists s.
  - simpl. intros Hs. destruct (IH Hs) as [post Hpost].
    exists post.
    change (String a s = String a (beforeFirst c s +:+ String c post)).
    now f_equal.
Qed.

Lemma lastIndexOf_from_eq c s i acc :
  lastIndexOf_from c s i acc =
  if has c s
  then i + Z.of_nat (String.length s) - 1
       - Z.of_nat (String.length (afterLast c s))
  else acc.
Proof.
  revert i acc. induction s as [|a s IH]; intros i acc; simpl lastIndexOf_from;
    [reflexivity |].
  rewrite IH. cbn [has afterLast String.length].
  destruct (has c s) eqn:Hs.
  - rewrite orb_true_r. lia.
  - rewrite orb_false_r. destruct (Ascii.eqb a c); [lia | reflexivity].
Qed.

Lemma indexOf_from_eq c s i :
  indexOf_from c s i =
  if has c s then i + Z.of_nat (String.length (beforeFirst c s)) else -1.
Proof.
  revert i. induction s as [|a s IH]; intros i; simpl indexOf_from;
    [reflexivity |].
  cbn [has beforeFirst]. destruct (Ascii.eqb a c); simpl.
  - lia.
  - rewrite IH. destruct (has c s); [simpl; lia | reflexivity].
Qed.

(** [s.substring(s.lastIndexOf(c))] *)
Lemma substring1_lastIndexOf c s :
  substring1 s (lastIndexOf c s) =
  if has c s then String c (afterLast c s) else s.
Proof.
  unfold lastIndexOf. rewrite lastIndexOf_from_eq.
  destruct (has c s) eqn:Hs.
  - destruct (afterLast_split c s Hs) as [pre Hpre].
    set (t := afterLast c s) in *.
    rewrite Hpre at 1 2. rewrite length_append. cbn [String.length].
    replace (0 + Z.of_nat (String.length pre + S (String.length t)) - 1
             - Z.of_nat (String.length t))
      with (Z.of_nat (String.length pre)) by lia.
    apply substring1_skip.
  - now apply substring1_neg.
Qed.

Lemma lastIndexOf_nonneg c s : (0 <=? lastIndexOf c s) = has c s.
Proof.
  unfold lastIndexOf. rewrite lastIndexOf_from_eq.
  destruct (has c s) eqn:Hs; [| reflexivity].
  destruct (afterLast_split c s Hs) as [pre Hpre].
  apply Z.leb_le. rewrite Hpre at 1. rewrite length_append.
  cbn [String.length]. lia.
Qed.

(** [s.indexOf(c) === -1 ? s : s.substring(0, s.indexOf(c))] *)
Lemma substring2_indexOf c s :
  (if indexOf c s =? -1 then s else substring2 s 0 (indexOf c s)) =
  beforeFirst c s.
Proof.
  unfold indexOf. rewrite indexOf_from_eq.
  destruct (has c s) eqn:Hs.
  - destruct (Z.eqb_spec (0 + Z.of_nat (String.length (beforeFirst c s))) (-1));
      [lia |].
    destruct (beforeFirst_split c s Hs) as [post Hpost].
    rewrite Hpost at 1. rewrite Z.add_0_l. apply substring2_take.
  - simpl. symmetry. now apply beforeFirst_absent.
Qed.

End StringFacts.

(** ** Key derivation *)

Section KeyDerivation.

Import KeySpec.

Variable isUri : string -> bool.
Variable hash : string -> string.

(** The allow-list, read with and without the leading dot. *)
Lemma includes_recognized (x : string) :
  includes validImageExtensions (String "." x) = bool_decide (x ∈ recognized).
Proof.
  unfold includes, validImageExtensions, recognized.
  destruct (bool_decide_reflect (x ∈ ["jpg"; "png"; "jpeg"; "gif"]%string))
    as [H | H].
  - rewrite !elem_of_cons in H.
    destruct H as [-> | [-> | [-> | [-> | H]]]]; try reflexivity.
    now apply elem_of_nil in H.
  - cbn [existsb String.eqb]. rewrite Ascii.eqb_refl.
    repeat match goal with
           | |- context [String.eqb x ?k] =>
               destruct (String.eqb_spec x k) as [-> | _];
               [exfalso; apply H; set_solver |]
           end.
    reflexivity.
Qed.

Lemma in_validImageExtensions (x : string) :
  In (String "." x) validImageExtensions <-> x ∈ recognized.
Proof.
  unfold validImageExtensions, recognized. split.
  - intros H. cbn [In] in H.
    destruct H as [H | [H | [H | [H | []]]]]; injection H as <-; set_solver.
  - intros H. rewrite !elem_of_cons in H.
    destruct H as [-> | [-> | [-> | [-> | H]]]]; cbn [In]; auto 6.
    now apply elem_of_nil in H.
Qed.

(** The index arithmetic of [getImageInfo] computes the segment after the
    last [/] cut at the first [?], and the text after its last [.]. *)
Lemma getImageInfo_deriveKey (uri : string) :
  getImageInfo isUri hash uri = deriveKey isUri hash uri.
Proof.
  unfold getImageInfo, deriveKey, lastSegment. cbv zeta.
  destruct (isUri uri); [| reflexivity]. cbn [andb].
  rewrite substring1_lastIndexOf, substring2_indexOf, lastIndexOf_nonneg.
  rewrite substring1_lastIndexOf.
  set (seg := afterLast "/" uri).
  assert (Hname :
    let name := beforeFirst "?" (if has "/" uri then String "/" seg else uri) in
    has "." name = has "." (beforeFirst "?" seg) /\
    (has "." name = true ->
     afterLast "." name = afterLast "." (beforeFirst "?" seg))).
  { cbv zeta. destruct (has "/" uri) eqn:Hs.
    - cbn [beforeFirst has afterLast]. cbn. split; [reflexivity |].
      now intros ->.
    - unfold seg. rewrite (afterLast_absent _ _ Hs). now split. }
  cbv zeta in Hname. destruct Hname as [Hhas Hafter]. rewrite Hhas in *.
  destruct (has "." (beforeFirst "?" seg)); [| reflexivity].
  rewrite (Hafter eq_refl), includes_recognized. cbn [andb].
  destruct (bool_decide _); [| reflexivity].
  f_equal. f_equal. f_equal.
  exact (substring1_skip "." (afterLast "." (beforeFirst "?" seg))).
Qed.

(** C7.  [getImageInfo] accepts a URI exactly when it passes
    [validUrl.isUri], the segment after its last [/], cut at the first
    [?], contains a [.], and the text from the last [.] of that segment to
    its end is one of [.jpg], [.png], [.jpeg], [.gif]; the key returned
    is then [hash(uri)], a dot and that extension without its dot.  The
    key is a function of the URI alone. *)
Theorem getImageInfo_accepts (uri key : string) :
  getImageInfo isUri hash uri = Some key <->
  isUri uri = true /\
  has "." (lastSegment uri) = true /\
  In (String "." (afterLast "." (lastSegment uri))) validImageExtensions /\
  key = hash uri +:+ "." +:+ afterLast "." (lastSegment uri).
Proof.
  rewrite getImageInfo_deriveKey, in_validImageExtensions. unfold deriveKey.
  destruct (isUri uri); cbn [andb].
  2: { split; [discriminate | now intros [? _]]. }
  destruct (has "." (lastSegment uri)); cbn [andb].
  2: { split; [discriminate | now intros [_ [? _]]]. }
  destruct (bool_decide_reflect
              (afterLast "." (lastSegment uri) ∈ recognized)) as [H | H].
  - split.
    + intros [= <-]. auto.
    + now intros (_ & _ & _ & ->).
  - split; [discriminate | now intros (_ & _ & ? & _)].
Qed.

End KeyDerivation.

(** ** Frames *)

Section Frames.

Variable E : env.

Lemma preserves_bind {A B} (P : world -> Prop) (m : M A) (k : A -> M B) :
  preserves P m -> (forall a, preserves P (k a)) -> preserves P (bind m k).
Proof.
  intros Hm Hk w Hw. specialize (Hm w Hw). unfold bind, world_of in *.
  destruct (m w) as [[a w1] t1]. specialize (Hk a w1 Hm).
  unfold world_of in Hk. destruct (k a w1) as [[b w2] t2]. exact Hk.
Qed.

Lemma preserves_ret {A} (P : world -> Prop) (a : A) : preserves P (ret a).
Proof. intros w Hw. exact Hw. Qed.

Lemma preserves_keeps {A} (s : stored) (m : M A) :
  keeps_storage m -> preserves (fun w => storage w = s) m.
Proof. intros Hm w Hw. now rewrite Hm. Qed.

Lemma keeps_fsExists p : keeps_storage (fsExists E p).
Proof. intros w. reflexivity. Qed.

Lemma keeps_fsUnlink p : keeps_storage (fsUnlink E p).
Proof. intros w. unfold fsUnlink. now destruct (bool_decide _). Qed.

Lemma keeps_httpGet u p : keeps_storage (httpGet E u p).
Proof. intros w. reflexivity. Qed.

Lemma keeps_flush p : keeps_storage (flush p).
Proof. intros w. reflexivity. Qed.

Lemma keeps_call cb a : keeps_storage (call cb a).
Proof. intros w. reflexivity. Qed.

Lemma keeps_consoleLog msg : keeps_storage (consoleLog msg).
Proof. intros w. reflexivity. Qed.

(** The single-URI update when the URI already has an entry: one read of
    the store and nothing else. *)
Lemma updateCacheMapping_present_run (uri fi : string) (w : world) t e :
  storage w = Json t -> t !! uri = Some e ->
  updateCacheMapping E uri fi w =
  (match getItem_error E with Some err => Rejected err | None => Resolved t end,
   w, [StoreGet CACHE_STORAGE]).
Proof.
  intros Hst Hin.
  unfold updateCacheMapping, getCurrentCacheMappingFromAsyncStorage, getItem,
    bind.
  destruct (getItem_error E); cbn; [reflexivity |].
  rewrite Hst. cbn. unfold truthyAt. rewrite Hin. reflexivity.
Qed.

Lemma updateCacheMapping_present_frame (uri : string) t e :
  t !! uri = Some e ->
  forall fi,
    preserves (fun w => storage w = Json t) (updateCacheMapping E uri fi).
Proof.
  intros Hin fi w Hw.
  now rewrite (updateCacheMapping_present_run _ _ _ _ _ Hw Hin).
Qed.

(** Whatever the store answers, the update touches no file, asks nothing of
    the network or the file system and leaves the clock alone. *)
Lemma updateCacheMapping_run (uri fi : string) (w : world) :
  exists o s l,
    updateCacheMapping E uri fi w =
    (o, {| files := files w; storage := s; clock := clock w |}, l) /\
    Forall (fun ev => isRequest ev = false) l /\
    (forall e, o = Rejected e -> getItem_error E = Some e \/
                                 setItem_error E = Some e) /\
    o <> Pending.
Proof.
  unfold updateCacheMapping, getCurrentCacheMappingFromAsyncStorage, getItem,
    setItem, dateNow, consoleLog, emit, bind, ret.
  destruct w as [fs st ck]. cbn.
  destruct (getItem_error E) as [err |] eqn:Hget; cbn;
    [| destruct st as [| | t]; cbn;
       match goal with
       | |- context [truthyAt ?m uri] => destruct (truthyAt m uri)
       end; cbn;
       try (destruct (setItem_error E) as [err |] eqn:Hset; cbn)].
  all: do 3 eexists; split; [reflexivity |].
  all: split; [repeat constructor |].
  all: split; [| discriminate].
  all: intros e' [= <-]; auto.
Qed.

Lemma fetches_app (t1 t2 : list event) :
  fetches (t1 ++ t2) = (fetches t1 + fetches t2)%nat.
Proof. unfold fetches. now rewrite filter_app, length_app. Qed.

Lemma fetches_cons (ev : event) (t : list event) :
  fetches (ev :: t) = ((if isFetch ev then 1 else 0) + fetches t)%nat.
Proof. unfold fetches. rewrite filter_cons. now destruct (isFetch ev). Qed.

Lemma no_request_no_fetch (t : list event) :
  Forall (fun ev => isRequest ev = false) t -> fetches t = 0%nat.
Proof.
  induction 1 as [| ev t Hev _ IH]; [reflexivity |].
  rewrite fetches_cons, IH. now destruct ev.
Qed.

(** The [catch] block of [fetchImage] and [preloadImage]: it rejects with
    the error it caught, and no file is left at the path of the key. *)
Lemma onError_run {A} (CacheDir fi : string) (e : error) (w : world) :
  exists w' t,
    (@onError CacheDir E A (Some fi) e w) = (Rejected e, w', t) /\
    (generateAbsolutePath CacheDir fi ∉ files w') /\
    storage w' = storage w /\
    fetches t = 0%nat.
Proof.
  unfold onError, fsUnlink, consoleLog, emit, bind, ret.
  destruct (bool_decide_reflect (generateAbsolutePath CacheDir fi ∈ files w))
    as [Hin | Hout]; cbn.
  - do 2 eexists. split; [reflexivity |]. cbn. split; [| auto].
    rewrite elem_of_difference, elem_of_singleton. tauto.
  - destruct (unlink_missing E); cbn;
      do 2 eexists; (split; [reflexivity |]); auto.
Qed.

Lemma getImagePath_run (CacheDir fi : string) (w : world) :
  getImagePath CacheDir E fi w =
  (if exists_fails E (generateAbsolutePath CacheDir fi) then None
   else if bool_decide (generateAbsolutePath CacheDir fi ∈ files w)
        then Some (generateAbsolutePath CacheDir fi) else None,
   w, [FsExists (generateAbsolutePath CacheDir fi)]).
Proof.
  unfold getImagePath, fsExists, bind.
  destruct (exists_fails E _); [reflexivity |].
  now destruct (bool_decide _).
Qed.

End Frames.

Ltac frame s known :=
  repeat match goal with
    | |- preserves _ (updateCacheMapping _ _ _) => apply known
    | |- preserves _ (ret _) => apply preserves_ret
    | |- preserves _ (bind _ _) => apply preserves_bind; [| intros ?]
    | |- preserves _ (match ?x with _ => _ end) => destruct x
    | |- preserves _ _ =>
        apply (preserves_keeps s);
        first [ apply keeps_fsExists | apply keeps_fsUnlink
              | apply keeps_httpGet | apply keeps_flush | apply keeps_call
              | apply keeps_consoleLog ]
    end.

(** ** The operations *)

Section Behaviour.

Variable isUri : string -> bool.
Variable hash : string -> string.
Variable CacheDir : string.

Abbreviation getImageInfo := (getImageInfo isUri hash).
Abbreviation generateAbsolutePath := (generateAbsolutePath CacheDir).
Abbreviation fetchImage := (fetchImage isUri hash CacheDir).
Abbreviation preloadImage := (preloadImage isUri hash CacheDir).
Abbreviation preloadImageStart := (preloadImageStart isUri hash CacheDir).
Abbreviation preloadImageFinish := (preloadImageFinish CacheDir).
Abbreviation downloadImages := (downloadImages isUri hash CacheDir).
Abbreviation preloadImages := (preloadImages isUri hash CacheDir).
Abbreviation getImagePath := (getImagePath CacheDir).
Abbreviation clearExpiredImage := (clearExpiredImage CacheDir).

(** *** The three ways through [fetchImage] past key derivation *)

(** The probe reports no artifact: it rejected, or there is no file. *)
Lemma probe_miss (E : env) (fi : string) (w : world) :
  outcome_of (getImagePath E fi w) = None <->
  exists_fails E (generateAbsolutePath fi) = true \/
  generateAbsolutePath fi ∉ files w.
Proof.
  rewrite getImagePath_run. unfold outcome_of. cbn [fst].
  destruct (exists_fails E _); [now split; auto |].
  destruct (bool_decide_reflect (generateAbsolutePath fi ∈ files w)) as [H | H].
  - split; [discriminate | now intros [? | ?]].
  - split; auto.
Qed.

Lemma probe_hit (E : env) (fi : string) (w : world) :
  exists_fails E (generateAbsolutePath fi) = false ->
  generateAbsolutePath fi ∈ files w ->
  getImagePath E fi w =
  (Some (generateAbsolutePath fi), w, [FsExists (generateAbsolutePath fi)]).
Proof.
  intros Hok Hin. rewrite getImagePath_run, Hok.
  now rewrite (bool_decide_eq_true_2 _ Hin).
Qed.

Lemma fetchImage_hit_run (E : env) (uri : string) (callback : listener)
    (w : world) (fi : string) :
  getImageInfo uri = Some fi ->
  exists_fails E (generateAbsolutePath fi) = false ->
  generateAbsolutePath fi ∈ files w ->
  fetchImage E uri callback w =
  let hit := {| uri := uri; imagePath := generateAbsolutePath fi |} in
  match callback (Plain hit) with
  | None =>
      (Resolved hit, w,
       [FsExists (generateAbsolutePath fi); Called (Plain hit)])
  | Some e =>
      (Rejected e,
       {| files := files w ∖ {[generateAbsolutePath fi]};
          storage := storage w; clock := clock w |},
       [FsExists (generateAbsolutePath fi); Called (Plain hit);
        FsUnlink (generateAbsolutePath fi); ConsoleLog e])
  end.
Proof.
  intros Hfi Hok Hin. unfold ImageCache.fetchImage. rewrite Hfi.
  unfold bind at 1. rewrite (probe_hit E fi w Hok Hin).
  unfold bind, call, onError, fsUnlink, consoleLog, emit, ret, bind. cbn zeta.
  destruct (callback _); [| reflexivity].
  now rewrite (bool_decide_eq_true_2 _ Hin).
Qed.

Lemma fetchImage_download_run (E : env) (uri : string) (callback : listener)
    (w : world) (fi : string) :
  getImageInfo uri = Some fi ->
  outcome_of (getImagePath E fi w) = None ->
  network E uri = Response 200 ->
  callback (Plain {| uri := uri; imagePath := generateAbsolutePath fi |})
    = None ->
  fetchImage E uri callback w =
  let path := generateAbsolutePath fi in
  let '(saved, w2, t2) := updateCacheMapping E uri fi (written path w) in
  (Resolved {| uri := uri; imagePath := path |}, w2,
   [FsExists path; HttpGet uri path;
    Called (Plain {| uri := uri; imagePath := path |})]
   ++ t2 ++ match saved with Rejected e => [ConsoleLog e] | _ => [] end).
Proof.
  intros Hfi Hmiss Hnet Hcb. unfold ImageCache.fetchImage. rewrite Hfi.
  rewrite getImagePath_run in Hmiss. unfold outcome_of in Hmiss.
  cbn [fst] in Hmiss.
  unfold bind at 1. rewrite getImagePath_run, Hmiss.
  unfold bind at 1. unfold httpGet at 1. rewrite Hnet. cbn [Z.eqb Pos.eqb].
  unfold bind at 1. unfold call at 1. rewrite Hcb.
  fold (written (generateAbsolutePath fi) w).
  unfold bind at 1. cbn zeta.
  destruct (updateCacheMapping E uri fi (written (generateAbsolutePath fi) w))
    as [[saved w2] t2].
  destruct saved; cbn; now rewrite ?app_nil_r.
Qed.

Ltac enter_miss Hfi Hprobe Hnet :=
  unfold ImageCache.fetchImage; rewrite Hfi;
  rewrite getImagePath_run in Hprobe; unfold outcome_of in Hprobe;
  cbn [fst] in Hprobe;
  unfold bind at 1; rewrite getImagePath_run, Hprobe;
  unfold bind at 1; unfold httpGet at 1; rewrite Hnet.

Ltac leave_by_onError fi :=
  match goal with
  | |- context [onError ?dir ?E (Some fi) ?e ?w1] =>
      let w' := fresh "w'" in
      let t := fresh "t" in
      let Hrun := fresh "Hrun" in
      let Hgone := fresh "Hgone" in
      let Hfetch := fresh "Hfetch" in
      destruct (onError_run (A := uriMap) E dir fi e w1)
        as (w' & t & Hrun & Hgone & _ & Hfetch);
      rewrite Hrun; cbn [app];
      unfold failedRun, outcome_of, world_of, trace_of; cbn [fst snd];
      rewrite !fetches_cons, Hfetch; auto
  end.

Lemma fetchImage_listener_throws_run (E : env) (uri : string)
    (callback : listener) (w : world) (fi : string) (e : error) :
  getImageInfo uri = Some fi ->
  outcome_of (getImagePath E fi w) = None ->
  network E uri = Response 200 ->
  callback (Plain {| uri := uri; imagePath := generateAbsolutePath fi |})
    = Some e ->
  failedRun CacheDir fi e (fetchImage E uri callback w).
Proof.
  intros Hfi Hprobe Hnet Hcb. enter_miss Hfi Hprobe Hnet.
  cbn [Z.eqb Pos.eqb]. unfold bind at 1. unfold call at 1. rewrite Hcb.
  leave_by_onError fi.
Qed.

Lemma fetchImage_status_run (E : env) (uri : string)
    (callback : listener) (w : world) (fi : string) (status : Z) :
  getImageInfo uri = Some fi ->
  outcome_of (getImagePath E fi w) = None ->
  network E uri = Response status ->
  status <> 200 ->
  failedRun CacheDir fi ("cannot preload image: " +:+ uri) (fetchImage E uri callback w).
Proof.
  intros Hfi Hprobe Hnet Hstatus. enter_miss Hfi Hprobe Hnet.
  apply Z.eqb_neq in Hstatus. rewrite Hstatus.
  unfold throwErrorOnInCompletedImageFetch, flush, ret.
  unfold bind at 1 2. cbn [files storage clock].
  leave_by_onError fi.
Qed.

Lemma fetchImage_transport_run (E : env) (uri : string)
    (callback : listener) (w : world) (fi : string) (e : error)
    (partial : bool) :
  getImageInfo uri = Some fi ->
  outcome_of (getImagePath E fi w) = None ->
  network E uri = TransportError e partial ->
  failedRun CacheDir fi e (fetchImage E uri callback w).
Proof.
  intros Hfi Hprobe Hnet. enter_miss Hfi Hprobe Hnet.
  leave_by_onError fi.
Qed.

(** The decision table of [fetchImage] once the key is derived: what it
    settles with, whether a file is left at the path of the key, and how
    many downloads it asks for. *)
Lemma fetchImage_cases (E : env) (uri : string) (callback : listener)
    (w : world) (fi : string) :
  getImageInfo uri = Some fi ->
  let run := fetchImage E uri callback w in
  let path := generateAbsolutePath fi in
  let m := {| uri := uri; imagePath := path |} in
  let heard :=
    match callback (Plain m) with
    | None => Resolved m
    | Some e => Rejected e
    end in
  outcome_of run =
    match outcome_of (getImagePath E fi w) with
    | Some _ => heard
    | None =>
        match network E uri with
        | Response status =>
            if status =? 200 then heard
            else Rejected ("cannot preload image: " +:+ uri)
        | TransportError e _ => Rejected e
        end
    end /\
  (if isResolved (outcome_of run) then path ∈ files (world_of run)
   else path ∉ files (world_of run)) /\
  fetches (trace_of run) =
    match outcome_of (getImagePath E fi w) with
    | Some _ => 0%nat
    | None => 1%nat
    end.
Proof.
  intros Hfi run path m heard. subst run heard m path.
  destruct (outcome_of (getImagePath E fi w)) as [p |] eqn:Hprobe.
  - (* hit *)
    assert (Hok : exists_fails E (generateAbsolutePath fi) = false /\
                  generateAbsolutePath fi ∈ files w).
    { rewrite getImagePath_run in Hprobe. unfold outcome_of in Hprobe.
      cbn [fst] in Hprobe. destruct (exists_fails E _); [discriminate |].
      destruct (bool_decide_reflect (generateAbsolutePath fi ∈ files w));
        [auto | discriminate]. }
    destruct Hok as [Hok Hin].
    rewrite (fetchImage_hit_run E uri callback w fi Hfi Hok Hin). cbn zeta.
    destruct (callback _); cbn; repeat split; auto.
    rewrite elem_of_difference, elem_of_singleton. tauto.
  - (* miss *)
    destruct (network E uri) as [status | e partial] eqn:Hnet.
    + destruct (Z.eqb_spec status 200) as [-> | Hstatus].
      * destruct (callback _) as [e |] eqn:Hcb.
        -- destruct (fetchImage_listener_throws_run E uri callback w fi e
                       Hfi Hprobe Hnet Hcb) as (-> & Hgone & ->).
           now cbn.
        -- rewrite (fetchImage_download_run E uri callback w fi
                      Hfi Hprobe Hnet Hcb). cbn zeta.
           destruct (updateCacheMapping_run E uri fi
                       (written (generateAbsolutePath fi) w))
             as (o & st & l & Hrun & Hquiet & _).
           rewrite Hrun. unfold outcome_of, world_of, trace_of.
           cbn [fst snd isResolved files written].
           repeat split; [apply elem_of_union_r; now apply elem_of_singleton |].
           rewrite !fetches_app, (no_request_no_fetch _ Hquiet).
           now destruct o.
      * destruct (fetchImage_status_run E uri callback w fi status
                    Hfi Hprobe Hnet Hstatus) as (-> & Hgone & ->).
        now cbn.
    + destruct (fetchImage_transport_run E uri callback w fi e partial
                  Hfi Hprobe Hnet) as (-> & Hgone & ->).
      now cbn.
Qed.

Lemma fetchImage_wrong_format_run (E : env) (uri : string)
    (callback : listener) (w : world) :
  getImageInfo uri = None ->
  fetchImage E uri callback w =
  (Rejected ("wrong file format: " +:+ uri), w,
   [ConsoleLog ("wrong file format: " +:+ uri)]).
Proof.
  intros Hnone. unfold ImageCache.fetchImage. now rewrite Hnone.
Qed.

(** C5.  When key derivation yields nothing for a URI, [fetchImage]
    rejects with the wrong-file-format error of that URI, leaves the world
    as it was, and its only effect is the log line: the trace holds no
    request to the network or to the file system. *)
Theorem fetchImage_wrong_format (E : env) (uri : string)
    (callback : listener) (w : world) :
  getImageInfo uri = None ->
  let run := fetchImage E uri callback w in
  outcome_of run = Rejected ("wrong file format: " +:+ uri) /\
  world_of run = w /\
  trace_of run = [ConsoleLog ("wrong file format: " +:+ uri)] /\
  Forall (fun e => isRequest e = false) (trace_of run).
Proof.
  intros Hnone run. subst run.
  rewrite (fetchImage_wrong_format_run E uri callback w Hnone).
  repeat split. repeat constructor.
Qed.

(** C10.  When the URI already has an entry in the persisted table, the
    single-URI update reads the store and does nothing else: the world is
    unchanged, no write is issued, and the table it resolves with is the
    one it read.  A [fetchImage] of that URI therefore leaves the table as
    it was, whichever path it takes, so the entry's [created] stamp is not
    refreshed by a new download. *)
Theorem updateCacheMapping_present (E : env) (uri fi : string) (w : world)
    (t : gmap string entry) (e : entry) :
  storage w = Json t ->
  t !! uri = Some e ->
  let run := updateCacheMapping E uri fi w in
  world_of run = w /\
  Forall (fun ev => isStoreSet ev = false) (trace_of run) /\
  outcome_of run =
    match getItem_error E with
    | Some err => Rejected err
    | None => Resolved t
    end /\
  forall callback,
    storage (world_of (fetchImage E uri callback w)) = Json t.
Proof.
  intros Hst Hin run. subst run.
  rewrite (updateCacheMapping_present_run E uri fi w t e Hst Hin).
  repeat split; [repeat constructor |].
  intros callback. revert w Hst.
  change (preserves (fun w => storage w = Json t) (fetchImage E uri callback)).
  unfold ImageCache.fetchImage, onError, ImageCache.getImagePath,
    throwErrorOnInCompletedImageFetch.
  frame (Json t) (updateCacheMapping_present_frame E uri t e Hin).
Qed.

(** C9.  When the probe finds no artifact, the download answers 200 and the
    listener returns, [fetchImage] resolves with [{uri, path}] whatever the
    store does afterwards; a rejection of the mapping update is written to
    the log. *)
Theorem fetchImage_resolves_despite_store (E : env) (uri : string)
    (callback : listener) (w : world) (fi : string) :
  getImageInfo uri = Some fi ->
  outcome_of (getImagePath E fi w) = None ->
  network E uri = Response 200 ->
  callback (Plain {| uri := uri; imagePath := generateAbsolutePath fi |})
    = None ->
  let run := fetchImage E uri callback w in
  outcome_of run =
    Resolved {| uri := uri; imagePath := generateAbsolutePath fi |} /\
  forall e,
    outcome_of (updateCacheMapping E uri fi
                  (written (generateAbsolutePath fi) w)) = Rejected e ->
    In (ConsoleLog e) (trace_of run).
Proof.
  intros Hfi Hmiss Hnet Hcb run. subst run.
  rewrite (fetchImage_download_run E uri callback w fi Hfi Hmiss Hnet Hcb).
  cbn zeta.
  destruct (updateCacheMapping E uri fi (written (generateAbsolutePath fi) w))
    as [[saved w2] t2].
  unfold outcome_of, trace_of. cbn [fst snd].
  split; [reflexivity |]. intros e ->.
  apply in_or_app. right. apply in_or_app. right. now left.
Qed.

(** C6, as amended.  Two calls of [fetchImage] for one URI, the second
    started in the world the first one leaves.  When the first call
    resolves, it resolves with [{uri, path}] for the path of the key and
    the artifact is at that path.  When, moreover, the probe of the second
    call answers and its listener returns, the second call is a hit and
    nothing else: it asks whether the artifact exists, calls the listener
    with [{uri, path}], resolves with the same [{uri, path}] and leaves the
    world as it found it; no download in the second call, at most one in
    the two. *)
Theorem fetchImage_twice (E1 E2 : env) (uri : string) (cb1 cb2 : listener)
    (w : world) (r1 : uriMap) :
  outcome_of (fetchImage E1 uri cb1 w) = Resolved r1 ->
  exists_fails E2 (imagePath r1) = false ->
  cb2 (Plain r1) = None ->
  let run1 := fetchImage E1 uri cb1 w in
  let run2 := fetchImage E2 uri cb2 (world_of run1) in
  (exists fi, getImageInfo uri = Some fi /\
              r1 = {| uri := uri; imagePath := generateAbsolutePath fi |}) /\
  imagePath r1 ∈ files (world_of run1) /\
  run2 = (Resolved r1, world_of run1,
          [FsExists (imagePath r1); Called (Plain r1)]) /\
  fetches (trace_of run2) = 0%nat /\
  (fetches (trace_of run1 ++ trace_of run2) <= 1)%nat.
Proof.
  intros Hfirst Hprobe2 Hcb2 run1 run2. subst run1 run2.
  destruct (getImageInfo uri) as [fi |] eqn:Hfi.
  2: { rewrite (fetchImage_wrong_format_run E1 uri cb1 w Hfi) in Hfirst.
       discriminate. }
  destruct (fetchImage_cases E1 uri cb1 w fi Hfi) as (Hout & Hfile & Hfetch).
  cbv zeta in Hout, Hfile, Hfetch.
  rewrite Hfirst in Hfile. cbn [isResolved] in Hfile.
  assert (Hr1 : r1 = {| uri := uri; imagePath := generateAbsolutePath fi |}).
  { rewrite Hfirst in Hout.
    destruct (outcome_of (getImagePath E1 fi w));
      [| destruct (network E1 uri) as [status | ? ?];
         [destruct (status =? 200) |]];
      try discriminate Hout;
      destruct (cb1 _); congruence. }
  subst r1. cbn [imagePath] in Hprobe2 |- *.
  rewrite (fetchImage_hit_run E2 uri cb2 _ fi Hfi Hprobe2 Hfile).
  cbn zeta. rewrite Hcb2.
  unfold trace_of at 1 3. cbn [fst snd].
  assert (Hnone : forall a b : event,
            isFetch a = false -> isFetch b = false -> fetches [a; b] = 0%nat).
  { intros a b Ha Hb. rewrite !fetches_cons, Ha, Hb. reflexivity. }
  split; [eauto |]. split; [exact Hfile |]. split; [reflexivity |].
  rewrite fetches_app, Hfetch, Hnone by reflexivity.
  split; [reflexivity |].
  destruct (outcome_of (getImagePath E1 fi w)); cbn; lia.
Qed.

(** C8, as amended.  When the probe finds no artifact and the download
    does not end with status 200, [fetchImage] leaves no file at the path
    of the key and rejects.  After a response with another status the
    error is [cannot preload image: <uri>], which quotes the URI; after a
    failure of the transport the error is the one the transport raised,
    passed on unchanged. *)
Theorem fetchImage_failed_download (E : env) (uri : string)
    (callback : listener) (w : world) (fi : string) :
  getImageInfo uri = Some fi ->
  outcome_of (getImagePath E fi w) = None ->
  network E uri <> Response 200 ->
  let run := fetchImage E uri callback w in
  (generateAbsolutePath fi ∉ files (world_of run)) /\
  match network E uri with
  | Response _ =>
      outcome_of run = Rejected ("cannot preload image: " +:+ uri) /\
      identifies ("cannot preload image: " +:+ uri) uri
  | TransportError e _ => outcome_of run = Rejected e
  end.
Proof.
  intros Hfi Hprobe Hnet run. subst run.
  destruct (network E uri) as [status | e partial] eqn:Hresponse.
  - assert (Hstatus : status <> 200) by congruence.
    destruct (fetchImage_status_run E uri callback w fi status
                Hfi Hprobe Hresponse Hstatus) as (Hout & Hgone & _).
    repeat split; auto. apply contains_append.
  - destruct (fetchImage_transport_run E uri callback w fi e partial
                Hfi Hprobe Hresponse) as (Hout & Hgone & _).
    split; auto.
Qed.

(** *** The batch *)

Lemma always_bind {A B} (Q : B -> Prop) (m : M A) (k : A -> M B) :
  (forall a, always Q (k a)) -> always Q (bind m k).
Proof.
  intros Hk w. unfold bind, outcome_of.
  destruct (m w) as [[a w1] t1]. specialize (Hk a w1). unfold outcome_of in Hk.
  now destruct (k a w1) as [[b w2] t2].
Qed.

Lemma always_ret {A} (Q : A -> Prop) (a : A) : Q a -> always Q (ret a).
Proof. intros Ha w. exact Ha. Qed.

(** Every way through [preloadImage] calls [resolve] or [reject]. *)
Lemma preloadImage_settles (E : env) (uri : string) (callback : listener) :
  always (fun o => o <> Pending) (preloadImage E uri callback).
Proof.
  unfold ImageCache.preloadImage, preloadImageResume, onError,
    throwErrorOnInCompletedImageFetch.
  repeat match goal with
    | |- always _ (ret _) => apply always_ret; discriminate
    | |- always _ (bind _ _) => apply always_bind; intros ?
    | |- always _ (match ?x with _ => _ end) => destruct x
    end.
Qed.

Lemma outcome_of_bind {A B} (m : M A) (k : A -> M B) (w : world) :
  outcome_of (bind m k w) = outcome_of (k (outcome_of (m w)) (world_of (m w))).
Proof.
  unfold bind, outcome_of, world_of. destruct (m w) as [[a w1] t1].
  cbn [fst snd]. now destruct (k a w1) as [[b w2] t2].
Qed.

Lemma world_of_bind {A B} (m : M A) (k : A -> M B) (w : world) :
  world_of (bind m k w) = world_of (k (outcome_of (m w)) (world_of (m w))).
Proof.
  unfold bind, outcome_of, world_of. destruct (m w) as [[a w1] t1].
  cbn [fst snd]. now destruct (k a w1) as [[b w2] t2].
Qed.

Lemma steady_bind {A B} (m : M A) (k : A -> M B) :
  steady m -> (forall a, steady (k a)) -> steady (bind m k).
Proof.
  intros Hm Hk w w'. rewrite !outcome_of_bind, (Hm w w'). apply Hk.
Qed.

Lemma steady_ret {A} (a : A) : steady (ret a).
Proof. intros w w'. reflexivity. Qed.

Lemma steady_onError {A} (E : env) (fileInfo : option string) (e : error) :
  steady (@onError CacheDir E A fileInfo e).
Proof.
  assert (H : forall w, outcome_of (@onError CacheDir E A fileInfo e w)
                        = Rejected e).
  { intros w. unfold onError, fsUnlink, consoleLog, emit, bind, ret.
    destruct fileInfo as [fi |]; [| reflexivity].
    destruct (bool_decide _); [reflexivity |].
    now destruct (unlink_missing E). }
  intros w w'. now rewrite !H.
Qed.

(** Past its probe, what [preloadImage] settles with is decided by the
    answer of the probe, the network and the listener. *)
Lemma steady_preloadImageFinish (E : env) (callback : listener)
    (s : started) :
  steady (preloadImageFinish E callback s).
Proof.
  destruct s as [o | uri fi imagePath]; [apply steady_ret |].
  unfold ImageCache.preloadImageFinish, preloadImageResume,
    throwErrorOnInCompletedImageFetch.
  repeat match goal with
    | |- steady (ret _) => apply steady_ret
    | |- steady (onError _ _ _ _) => apply steady_onError
    | |- steady (bind _ _) => apply steady_bind; [| intros ?]
    | |- steady (match ?x with _ => _ end) => destruct x
    | |- steady (if ?x then _ else _) => destruct x
    | |- steady _ => intros ? ?; reflexivity
    end.
Qed.

(** The first phase of the batch changes nothing: it only asks. *)
Lemma preloadImageStart_world (E : env) (uri : string) (w : world) :
  world_of (preloadImageStart E uri w) = w.
Proof.
  unfold ImageCache.preloadImageStart.
  destruct (getImageInfo uri) as [fi |].
  - rewrite world_of_bind, getImagePath_run. reflexivity.
  - reflexivity.
Qed.

(** [preloadImage] is its two phases, one after the other. *)
Lemma preloadImage_phases (E : env) (uri : string) (callback : listener)
    (w : world) :
  outcome_of (preloadImage E uri callback w) =
  outcome_of
    (preloadImageFinish E callback (outcome_of (preloadImageStart E uri w)) w).
Proof.
  unfold ImageCache.preloadImage, ImageCache.preloadImageStart.
  destruct (getImageInfo uri) as [fi |].
  - rewrite !outcome_of_bind, getImagePath_run. reflexivity.
  - rewrite outcome_of_bind. reflexivity.
Qed.

Lemma loadImage_run (promise : M (outcome response)) (w : world) :
  outcome_of (loadImage promise w) = swallow (outcome_of (promise w)).
Proof.
  unfold loadImage. rewrite outcome_of_bind.
  now destruct (outcome_of (promise w)).
Qed.

Lemma mapM_cons {A B} (f : A -> M B) (a : A) (l : list A) (w : world) :
  outcome_of (mapM f (a :: l) w) =
    outcome_of (f a w) :: outcome_of (mapM f l (world_of (f a w))) /\
  world_of (mapM f (a :: l) w) = world_of (mapM f l (world_of (f a w))).
Proof.
  cbn [mapM]. unfold bind, ret, outcome_of, world_of.
  destruct (f a w) as [[b w1] t1]. cbn [fst snd].
  now destruct (mapM f l w1) as [[bs w2] t2].
Qed.

(** Every probe of the batch is answered from the world the batch starts
    in, which the first phase hands on as it found it. *)
Lemma mapM_preloadImageStart (E : env) (uris : list string) (w : world) :
  outcome_of (mapM (preloadImageStart E) uris w) =
    map (fun uri => outcome_of (preloadImageStart E uri w)) uris /\
  world_of (mapM (preloadImageStart E) uris w) = w.
Proof.
  induction uris as [| uri uris [IHo IHw]]; [split; reflexivity |].
  destruct (mapM_cons (preloadImageStart E) uri uris w) as [-> ->].
  rewrite preloadImageStart_world. cbn [map]. now rewrite IHo, IHw.
Qed.

(** The promises of the batch, seen from the per-URI operations: each
    settles as [preloadImage] does on its own from the world the batch
    starts in. *)
Lemma mapM_loadImage (E : env) (callback : listener) (uris : list string)
    (w w1 : world) :
  outcome_of
    (mapM (fun s => loadImage (preloadImageFinish E callback s))
       (map (fun uri => outcome_of (preloadImageStart E uri w)) uris) w1) =
  map swallow
    (map (fun uri => outcome_of (preloadImage E uri callback w)) uris).
Proof.
  revert w1. induction uris as [| uri uris IH]; intros w1; [reflexivity |].
  cbn [map].
  destruct (mapM_cons (fun s => loadImage (preloadImageFinish E callback s))
              (outcome_of (preloadImageStart E uri w))
              (map (fun uri => outcome_of (preloadImageStart E uri w)) uris)
              w1) as [-> _].
  rewrite IH, loadImage_run, preloadImage_phases. do 2 f_equal.
  apply steady_preloadImageFinish.
Qed.

Lemma promiseAll_swallow {A} (os : list (outcome A)) :
  Forall (fun o => o <> Pending) os ->
  promiseAll (map swallow os) = Resolved (map settledValue os).
Proof.
  induction 1 as [| o os Ho _ IH]; [reflexivity |].
  cbn [map promiseAll]. rewrite IH. now destruct o.
Qed.

(** [downloadImages] resolves, with one value per URI: what the operation
    of that URI resolved with, or [undefined]. *)
Lemma downloadImages_outcome (E : env) (uris : list string)
    (callback : listener) (w : world) :
  outcome_of (downloadImages E uris callback w) =
  Resolved
    (map settledValue
       (map (fun uri => outcome_of (preloadImage E uri callback w)) uris)).
Proof.
  unfold ImageCache.downloadImages. rewrite !outcome_of_bind.
  destruct (mapM_preloadImageStart E uris w) as [-> ->].
  rewrite mapM_loadImage. unfold ret, outcome_of at 1. cbn [fst].
  apply promiseAll_swallow. apply Forall_map, Forall_forall.
  intros uri _. apply preloadImage_settles.
Qed.

Lemma resolvedCount_cons {A} (o : outcome A) (os : list (outcome A)) :
  resolvedCount (o :: os) =
  ((if isResolved o then 1 else 0) + resolvedCount os)%nat.
Proof.
  unfold resolvedCount. rewrite filter_cons. now destruct (isResolved o).
Qed.

Lemma resolvedCount_map {A B} (f : A -> outcome B) (l : list A) :
  resolvedCount (map f l) =
  length (filter (fun a => isResolved (f a)) l).
Proof.
  induction l as [| a l IH]; [reflexivity |].
  cbn [map]. rewrite resolvedCount_cons, filter_cons, IH.
  now destruct (isResolved (f a)).
Qed.

(** The counter of [responses.forEach] counts the resolved promises. *)
Lemma recordResponse_count (current : Z) (os : list (outcome response))
    (acc : gmap string entry * nat) :
  (fold_left (recordResponse current) (map settledValue os) acc).2 =
  (acc.2 + resolvedCount os)%nat.
Proof.
  revert acc. induction os as [| o os IH]; intros acc.
  - cbn. unfold resolvedCount. cbn. lia.
  - cbn [map fold_left]. rewrite IH, resolvedCount_cons.
    destruct o; cbn; lia.
Qed.

(** C4.  When the store can be read, [preloadImages] resolves, whatever
    happens to the single URIs: [tried] is the length of the array and
    [downloaded] the number of URIs of the array whose operation resolved,
    each operation settling as [preloadImage] does from the world the
    batch starts in, since every probe of the batch precedes every
    download.  A URI whose operation rejects (wrong format, failed
    download) only fails to be counted. *)
Theorem preloadImages_info (E : env) (uris : list string)
    (listener : listener) (w : world) :
  getItem_error E = None ->
  exists mapping,
    outcome_of (preloadImages E uris listener w) =
    Resolved
      {| info :=
           {| tried := length uris;
              downloaded :=
                length
                  (filter
                     (fun uri =>
                        isResolved (outcome_of (preloadImage E uri listener w)))
                     uris)
           |};
         cacheMapping := mapping |}.
Proof.
  intros Hget.
  unfold ImageCache.preloadImages. rewrite outcome_of_bind.
  rewrite downloadImages_outcome.
  unfold getCurrentCacheMappingFromAsyncStorage, getItem, dateNow, setItem,
    consoleLog, emit, bind, ret.
  rewrite Hget.
  destruct (storage _) as [| | t];
    destruct (setItem_error E); cbn [fst snd outcome_of];
    eexists; rewrite recordResponse_count, resolvedCount_map; reflexivity.
Qed.

(** A hit inside the batch: the value resolved carries no [fileInfo]. *)
Lemma preloadImage_hit_run (E : env) (uri : string) (callback : listener)
    (w : world) (fi : string) :
  getImageInfo uri = Some fi ->
  exists_fails E (generateAbsolutePath fi) = false ->
  generateAbsolutePath fi ∈ files w ->
  callback (Plain {| uri := uri; imagePath := generateAbsolutePath fi |})
    = None ->
  preloadImage E uri callback w =
  (Resolved {| r_uri := uri;
               r_imagePath := Some (generateAbsolutePath fi);
               r_fileInfo := None |},
   w,
   [FsExists (generateAbsolutePath fi);
    Called (Plain {| uri := uri; imagePath := generateAbsolutePath fi |})]).
Proof.
  intros Hfi Hok Hin Hcb. unfold ImageCache.preloadImage. rewrite Hfi.
  unfold bind at 1. rewrite (probe_hit E fi w Hok Hin).
  unfold preloadImageResume, bind, call, ret. now rewrite Hcb.
Qed.

(** C2 fails on the code.  A batch of one URI whose artifact is already on
    disk resolves that URI as a hit, and the entry the batch then writes
    for it has no [fileInfo]: the persisted record is [{created}] alone. *)
Theorem preloadImages_hit_loses_fileInfo (E : env) (uri : string)
    (listener : listener) (w : world) (fi : string) :
  getImageInfo uri = Some fi ->
  exists_fails E (generateAbsolutePath fi) = false ->
  generateAbsolutePath fi ∈ files w ->
  listener (Plain {| uri := uri; imagePath := generateAbsolutePath fi |})
    = None ->
  getItem_error E = None ->
  setItem_error E = None ->
  exists t,
    storage (world_of (preloadImages E [uri] listener w)) = Json t /\
    t !! uri = Some {| fileInfo := None; created := clock w |}.
Proof.
  intros Hfi Hok Hin Hcb Hget Hset.
  pose (path := generateAbsolutePath fi).
  assert (Hstart : mapM (preloadImageStart E) [uri] w =
                   ([Probing uri fi (Some path)], w, [FsExists path])).
  { cbn [mapM]. unfold ImageCache.preloadImageStart. rewrite Hfi.
    unfold bind. now rewrite (probe_hit E fi w Hok Hin). }
  assert (Hfinish :
            mapM (fun s => loadImage (preloadImageFinish E listener s))
              [Probing uri fi (Some path)] w =
            ([Resolved (Some {| r_uri := uri; r_imagePath := Some path;
                                r_fileInfo := None |})],
             w, [Called (Plain {| uri := uri; imagePath := path |})])).
  { cbn [mapM].
    unfold ImageCache.preloadImageFinish, preloadImageResume, loadImage,
      call, bind, ret.
    subst path. now rewrite Hcb. }
  unfold ImageCache.preloadImages, ImageCache.downloadImages, bind.
  rewrite Hstart. cbv beta iota zeta. rewrite Hfinish. cbv beta iota zeta.
  unfold getCurrentCacheMappingFromAsyncStorage, getItem, dateNow, setItem,
    consoleLog, emit, bind, ret.
  rewrite Hget, Hset. cbn [promiseAll].
  destruct (storage w) as [| | t]; cbn;
    eexists; (split; [reflexivity | apply lookup_insert_eq]).
Qed.

(** *** The expiry sweep *)

(** A day gap is falsy only when the two stamps are equal. *)
Lemma truthy_gap (now created : Z) :
  truthy (calculateDayGap now created) = negb (now =? created).
Proof.
  unfold truthy, calculateDayGap.
  change (24 * 60 * 60 * 1000) with 86400000.
  unfold Qeq_bool, Qdiv, Qmult, Qinv, inject_Z. cbn [Qnum Qden].
  f_equal. rewrite Z.mul_1_r, Z.mul_0_l.
  destruct (Z.eqb_spec (now - created) 0), (Z.eqb_spec now created);
    lia || reflexivity.
Qed.

(** C1 fails on the code.  Whenever the sweep resolves, every entry whose
    [created] stamp differs from the current time is gone from the
    persisted table, whatever the threshold: line 140 tests the day gap
    for truthiness instead of comparing it with [expiredPeriod]. *)
Theorem clearExpiredImage_drops_unexpired (E : env) (expiredPeriod : Q)
    (w : world) (t : gmap string entry) (uri : string) (e : entry)
    (msg : string) :
  storage w = Json t ->
  t !! uri = Some e ->
  created e <> clock w ->
  outcome_of (clearExpiredImage E expiredPeriod w) = Resolved msg ->
  exists t',
    storage (world_of (clearExpiredImage E expiredPeriod w)) = Json t' /\
    t' !! uri = None.
Proof.
  intros Hst Hin Hstamp. unfold outcome_of, world_of.
  destruct (clearExpiredImage E expiredPeriod w) as [[o w'] tr] eqn:Hrun.
  cbn [fst snd]. intros ->.
  unfold ImageCache.clearExpiredImage in Hrun.
  unfold bind at 1, getItem at 1 in Hrun.
  destruct (getItem_error E); [discriminate Hrun |].
  rewrite Hst in Hrun. unfold bind at 1, dateNow at 1 in Hrun.
  unfold bind at 1 in Hrun.
  destruct (mapM _ _ w) as [[deleted w1] t1].
  destruct (promiseAll deleted); try discriminate Hrun.
  unfold bind, setItem, ret in Hrun.
  destruct (setItem_error E); [discriminate Hrun |].
  injection Hrun as _ <- _. cbn [storage].
  eexists. split; [reflexivity |].
  unfold dropEntries. apply map_lookup_filter_None. right.
  intros e' He'. rewrite Hin in He'. injection He' as <-. cbn [snd].
  rewrite truthy_gap. destruct (Z.eqb_spec (clock w) (created e)); [| easy].
  congruence.
Qed.

(** C3 fails on the code.  When nothing is stored under the key, the
    executor of [clearExpiredImage] reads the store and returns: neither
    [resolve] nor [reject] is called, and the promise stays pending. *)
Theorem clearExpiredImage_pending_without_item (E : env) (expiredPeriod : Q)
    (w : world) :
  getItem_error E = None ->
  storage w = NoItem ->
  clearExpiredImage E expiredPeriod w = (Pending, w, [StoreGet CACHE_STORAGE]).
Proof.
  intros Hget Hst. unfold ImageCache.clearExpiredImage, getItem, bind, ret.
  now rewrite Hget, Hst.
Qed.

End Behaviour.

(** ** More on the keys *)

Section KeyFacts.

Import KeySpec.

Variable isUri : string -> bool.
Variable hash : string -> string.

Lemma has_append (c : ascii) (s t : string) :
  has c (s +:+ t) = has c s || has c t.
Proof.
  induction s as [|a s IH]; [reflexivity |].
  change (String a s +:+ t) with (String a (s +:+ t)).
  cbn [has]. rewrite IH. apply orb_assoc.
Qed.

Lemma afterLast_append (c : ascii) (pre ext : string) :
  has c ext = false -> afterLast c (pre +:+ String c ext) = ext.
Proof.
  intros Hext. induction pre as [|a pre IH].
  - change (EmptyString +:+ String c ext) with (String c ext).
    cbn [afterLast]. now rewrite Hext, Ascii.eqb_refl.
  - change (String a pre +:+ String c ext)
      with (String a (pre +:+ String c ext)).
    cbn [afterLast]. rewrite has_append. cbn [has].
    rewrite Ascii.eqb_refl, orb_true_l, orb_true_r. exact IH.
Qed.

Lemma append_cancel_r (s1 s2 t : string) : s1 +:+ t = s2 +:+ t -> s1 = s2.
Proof.
  revert s2. induction s1 as [|a s1 IH]; intros [|b s2] H.
  - reflexivity.
  - apply (f_equal String.length) in H.
    change (String.length t = S (String.length (s2 +:+ t))) in H.
    rewrite length_append in H. lia.
  - apply (f_equal String.length) in H.
    change (S (String.length (s1 +:+ t)) = String.length t) in H.
    rewrite length_append in H. lia.
  - change (String a (s1 +:+ t) = String b (s2 +:+ t)) in H.
    injection H as -> H. f_equal. now apply IH.
Qed.

Lemma recognized_no_dot (ext : string) :
  ext ∈ recognized -> has "." ext = false.
Proof.
  unfold recognized. rewrite !elem_of_cons.
  intros [-> | [-> | [-> | [-> | H]]]]; try reflexivity.
  now apply elem_of_nil in H.
Qed.

Lemma getImageInfo_shape (uri key : string) :
  getImageInfo isUri hash uri = Some key ->
  afterLast "." (lastSegment uri) ∈ recognized /\
  key = hash uri +:+ String "." (afterLast "." (lastSegment uri)).
Proof.
  rewrite getImageInfo_deriveKey. unfold deriveKey.
  destruct (isUri uri); [| discriminate]. cbn [andb].
  destruct (has "." (lastSegment uri)); [| discriminate]. cbn [andb].
  destruct (bool_decide_reflect
              (afterLast "." (lastSegment uri) ∈ recognized)) as [H | H];
    [| discriminate].
  intros [= <-]. auto.
Qed.

(** An accepted URI has a dot in its last segment, so it is none of the
    names inherited from [Object.prototype]: on accepted URIs the test of
    line 311 is the lookup in the table. *)
Lemma accepted_not_inherited (uri key : string) :
  getImageInfo isUri hash uri = Some key ->
  uri ∉ objectPrototypeKeys.
Proof.
  rewrite getImageInfo_deriveKey. intros Hkey Hin.
  unfold objectPrototypeKeys in Hin. rewrite !elem_of_cons in Hin.
  repeat (destruct Hin as [-> | Hin];
          [unfold deriveKey in Hkey; destruct (isUri _);
           cbn in Hkey; discriminate |]).
  now apply elem_of_nil in Hin.
Qed.

Lemma getImageInfo_key_tail (uri key : string) :
  getImageInfo isUri hash uri = Some key ->
  afterLast "." key = afterLast "." (lastSegment uri).
Proof.
  intros Hkey. destruct (getImageInfo_shape uri key Hkey) as (Hext & ->).
  apply afterLast_append, recognized_no_dot, Hext.
Qed.

(** X1.  The extension can be read back from the key: the text after the
    last dot of the key is the extension of the URI, one of [jpg], [png],
    [jpeg], [gif], whatever dots the digest contains. *)
Theorem getImageInfo_extension (uri key : string) :
  getImageInfo isUri hash uri = Some key ->
  afterLast "." key = afterLast "." (lastSegment uri) /\
  afterLast "." key ∈ recognized.
Proof.
  intros Hkey. rewrite (getImageInfo_key_tail uri key Hkey).
  split; [reflexivity | apply (getImageInfo_shape uri key Hkey)].
Qed.

(** When the digest is injective, so is key derivation. *)
Lemma getImageInfo_injective (uri1 uri2 key : string) :
  (forall a b, hash a = hash b -> a = b) ->
  getImageInfo isUri hash uri1 = Some key ->
  getImageInfo isUri hash uri2 = Some key ->
  uri1 = uri2.
Proof.
  intros Hinj H1 H2.
  pose proof (getImageInfo_key_tail uri1 key H1) as E1.
  pose proof (getImageInfo_key_tail uri2 key H2) as E2.
  destruct (getImageInfo_shape uri1 key H1) as [_ K1].
  destruct (getImageInfo_shape uri2 key H2) as [_ K2].
  rewrite <- E1 in K1. rewrite <- E2 in K2. rewrite K1 in K2 at 1.
  apply Hinj. exact (append_cancel_r _ _ _ K2).
Qed.

Lemma append_cancel_l (s t1 t2 : string) : s +:+ t1 = s +:+ t2 -> t1 = t2.
Proof.
  induction s as [|a s IH]; intros H; [exact H |].
  change (String a (s +:+ t1) = String a (s +:+ t2)) in H.
  injection H as H. now apply IH.
Qed.

(** X2.  No two URIs share an artifact: when the digest is injective, two
    accepted URIs whose keys resolve to the same path in the cache
    directory are the same URI. *)
Theorem artifact_path_injective (CacheDir uri1 uri2 key1 key2 : string) :
  (forall a b, hash a = hash b -> a = b) ->
  getImageInfo isUri hash uri1 = Some key1 ->
  getImageInfo isUri hash uri2 = Some key2 ->
  generateAbsolutePath CacheDir key1 = generateAbsolutePath CacheDir key2 ->
  uri1 = uri2.
Proof.
  intros Hinj H1 H2 Hpath. unfold generateAbsolutePath in Hpath.
  apply append_cancel_l, append_cancel_l in Hpath. subst key2.
  exact (getImageInfo_injective uri1 uri2 key1 Hinj H1 H2).
Qed.

End KeyFacts.

(** ** More on the expiry test *)


(** ** More on the mapping store *)

Section StoreFacts.

Variable E : env.

(** The single-URI update, path by path. *)
Lemma updateCacheMapping_eq (uri fi : string) (w : world) :
  updateCacheMapping E uri fi w =
  match getItem_error E with
  | Some e => (Rejected e, w, [StoreGet CACHE_STORAGE])
  | None =>
      let t0 := currentTable (storage w) in
      let t1 := <[uri := {| fileInfo := Some fi; created := clock w |}]> t0 in
      let pre := StoreGet CACHE_STORAGE :: readLog (storage w) in
      if truthyAt t0 uri then (Resolved t0, w, pre)
      else
        match setItem_error E with
        | Some e => (Rejected e, w, pre ++ [StoreSet CACHE_STORAGE t1])
        | None =>
            (Resolved t1,
             {| files := files w; storage := Json t1; clock := clock w |},
             pre ++ [StoreSet CACHE_STORAGE t1])
        end
  end.
Proof.
  unfold updateCacheMapping, getCurrentCacheMappingFromAsyncStorage, getItem,
    setItem, dateNow, consoleLog, emit, bind, ret.
  destruct w as [fs st ck]. cbn.
  destruct (getItem_error E) as [err |]; [reflexivity |].
  destruct st as [| | t]; cbn;
    match goal with
    | |- context [truthyAt ?m uri] => destruct (truthyAt m uri)
    end; cbn;
    try reflexivity;
    destruct (setItem_error E); reflexivity.
Qed.

(** The test of line 311 fails only for a name that is neither a key of
    the table nor inherited. *)
Lemma truthyAt_false (t : gmap string entry) (uri : string) :
  t !! uri = None ->
  uri ∉ objectPrototypeKeys ->
  truthyAt t uri = false.
Proof.
  intros Hnone Hown. unfold truthyAt. rewrite Hnone.
  now apply bool_decide_eq_false_2.
Qed.

Lemma truthyAt_insert (t : gmap string entry) (uri : string) (x : entry) :
  truthyAt (<[uri := x]> t) uri = true.
Proof. unfold truthyAt. now rewrite lookup_insert_eq. Qed.


(** X5.  When the write is refused for a name that is neither a key of the
    table read nor inherited from [Object.prototype], the update rejects
    with the error of the store and leaves the world as it was: the entry
    is not recorded. *)
Theorem updateCacheMapping_write_refused (uri fi : string) (w : world)
    (e : error) :
  getItem_error E = None ->
  setItem_error E = Some e ->
  currentTable (storage w) !! uri = None ->
  uri ∉ objectPrototypeKeys ->
  outcome_of (updateCacheMapping E uri fi w) = Rejected e /\
  world_of (updateCacheMapping E uri fi w) = w.
Proof.
  intros Hget Hset Hnew Hown.
  rewrite updateCacheMapping_eq, Hget. cbv zeta.
  now rewrite (truthyAt_false _ _ Hnew Hown), Hset.
Qed.

(** X6.  The update is idempotent: after an update of a URI that resolved,
    a second update of that URI, with any key, resolves with the same
    table, writes nothing and leaves the world as the first one left it. *)
Theorem updateCacheMapping_twice (uri fi fi' : string) (w : world)
    (t1 : gmap string entry) :
  outcome_of (updateCacheMapping E uri fi w) = Resolved t1 ->
  let w1 := world_of (updateCacheMapping E uri fi w) in
  let again := updateCacheMapping E uri fi' w1 in
  outcome_of again = Resolved t1 /\
  world_of again = w1 /\
  Forall (fun ev => isStoreSet ev = false) (trace_of again).
Proof.
  intros Hfirst w1 again. subst again w1. revert Hfirst.
  rewrite (updateCacheMapping_eq uri fi w).
  destruct (getItem_error E) as [err |] eqn:Hget; [discriminate |].
  cbv zeta.
  destruct (truthyAt (currentTable (storage w)) uri) eqn:Hold.
  - unfold outcome_of, world_of. cbn [fst snd]. intros [= <-].
    rewrite updateCacheMapping_eq, Hget. cbv zeta. rewrite Hold.
    unfold outcome_of, world_of, trace_of. cbn [fst snd].
    repeat split. destruct (storage w); repeat constructor.
  - destruct (setItem_error E); [discriminate |].
    unfold outcome_of, world_of. cbn [fst snd]. intros [= <-].
    rewrite updateCacheMapping_eq, Hget. cbv zeta.
    cbn [storage currentTable]. rewrite truthyAt_insert.
    unfold outcome_of, world_of, trace_of. cbn [fst snd].
    repeat split. repeat constructor.
Qed.

End StoreFacts.

(** ** More on [fetchImage] *)

Section FetchFacts.

Variable isUri : string -> bool.
Variable hash : string -> string.
Variable CacheDir : string.

Abbreviation getImageInfo := (getImageInfo isUri hash).
Abbreviation generateAbsolutePath := (generateAbsolutePath CacheDir).
Abbreviation fetchImage := (fetchImage isUri hash CacheDir).
Abbreviation preloadImage := (preloadImage isUri hash CacheDir).
Abbreviation getImagePath := (getImagePath CacheDir).

(** X7.  Every way through [fetchImage] calls [resolve] or [reject]: the
    promise never stays pending, whatever the URI, the listener, the
    network, the file system and the store do. *)
Theorem fetchImage_settles (E : env) (uri : string) (callback : listener)
    (w : world) :
  outcome_of (fetchImage E uri callback w) <> Pending.
Proof.
  revert w. change (always (fun o => o <> Pending) (fetchImage E uri callback)).
  unfold ImageCache.fetchImage, onError, throwErrorOnInCompletedImageFetch.
  repeat match goal with
    | |- always _ (ret _) => apply always_ret; discriminate
    | |- always _ (bind _ _) => apply always_bind; intros ?
    | |- always _ (match ?x with _ => _ end) => destruct x
    end.
Qed.

(** *** Files at other paths *)

Lemma updateCacheMapping_files (E : env) (uri fi : string) (w : world) :
  files (world_of (updateCacheMapping E uri fi w)) = files w.
Proof.
  destruct (updateCacheMapping_run E uri fi w) as (o & st & l & -> & _).
  reflexivity.
Qed.

Lemma other_fsUnlink (E : env) (p path : string) (b : bool) :
  p <> path ->
  preserves (fun w => bool_decide (p ∈ files w) = b) (fsUnlink E path).
Proof.
  intros Hp w Hw. unfold fsUnlink, world_of.
  destruct (bool_decide (path ∈ files w)); cbn; [| exact Hw].
  rewrite <- Hw. apply bool_decide_ext.
  rewrite elem_of_difference, elem_of_singleton. tauto.
Qed.

Lemma other_httpGet (E : env) (p uri path : string) (b : bool) :
  p <> path ->
  preserves (fun w => bool_decide (p ∈ files w) = b) (httpGet E uri path).
Proof.
  intros Hp w Hw. unfold httpGet, world_of. cbn.
  destruct (match network E uri with
            | Response _ => true
            | TransportError _ partial => partial
            end); [| exact Hw].
  rewrite <- Hw. apply bool_decide_ext.
  rewrite elem_of_union, elem_of_singleton. tauto.
Qed.

Lemma other_flush (p path : string) (b : bool) :
  p <> path ->
  preserves (fun w => bool_decide (p ∈ files w) = b) (flush path).
Proof.
  intros Hp w Hw. unfold flush, world_of. cbn.
  rewrite <- Hw. apply bool_decide_ext.
  rewrite elem_of_difference, elem_of_singleton. tauto.
Qed.

Ltac others Hp :=
  repeat match goal with
    | |- preserves _ (updateCacheMapping _ _ _) =>
        let w0 := fresh "w" in
        let Hw0 := fresh "Hw" in
        intros w0 Hw0; rewrite updateCacheMapping_files; exact Hw0
    | |- preserves _ (ret _) => apply preserves_ret
    | |- preserves _ (bind _ _) => apply preserves_bind; [| intros ?]
    | |- preserves _ (match ?x with _ => _ end) => destruct x
    | |- preserves _ (fsUnlink _ _) => apply other_fsUnlink; exact Hp
    | |- preserves _ (httpGet _ _ _) => apply other_httpGet; exact Hp
    | |- preserves _ (flush _) => apply other_flush; exact Hp
    | |- preserves _ _ => intros ? ?; assumption
    end.

(** X8.  [fetchImage] touches one path of the disk only, that of the key
    of its URI: a file at any other path is there after the call exactly
    when it was there before. *)
Theorem fetchImage_other_files (E : env) (uri : string) (callback : listener)
    (w : world) (fi p : string) :
  getImageInfo uri = Some fi ->
  p <> generateAbsolutePath fi ->
  (p ∈ files (world_of (fetchImage E uri callback w)) <-> p ∈ files w).
Proof.
  intros Hfi Hp.
  assert (Hkeep : forall b,
    preserves (fun w => bool_decide (p ∈ files w) = b)
      (fetchImage E uri callback)).
  { intros b. unfold ImageCache.fetchImage. rewrite Hfi.
    unfold onError, ImageCache.getImagePath,
      throwErrorOnInCompletedImageFetch.
    others Hp. }
  specialize (Hkeep (bool_decide (p ∈ files w)) w eq_refl).
  destruct (bool_decide_reflect (p ∈ files w)) as [Hin | Hout].
  - apply bool_decide_eq_true in Hkeep. tauto.
  - apply bool_decide_eq_false in Hkeep. tauto.
Qed.

(** *** Cache hits *)

(** X9.  A hit is served from the disk alone: when the probe finds the
    artifact and the listener returns, [fetchImage] resolves with
    [{uri, path}], the world is unchanged, and it asks nothing of the
    network or of the store, so a hit never records a mapping entry. *)
Theorem fetchImage_hit_is_quiet (E : env) (uri : string)
    (callback : listener) (w : world) (fi : string) :
  getImageInfo uri = Some fi ->
  exists_fails E (generateAbsolutePath fi) = false ->
  generateAbsolutePath fi ∈ files w ->
  callback (Plain {| uri := uri; imagePath := generateAbsolutePath fi |})
    = None ->
  let run := fetchImage E uri callback w in
  outcome_of run =
    Resolved {| uri := uri; imagePath := generateAbsolutePath fi |} /\
  world_of run = w /\
  Forall (fun ev => isStoreRequest ev = false /\ isFetch ev = false)
    (trace_of run).
Proof.
  intros Hfi Hok Hin Hcb run. subst run.
  rewrite (fetchImage_hit_run isUri hash CacheDir E uri callback w fi
             Hfi Hok Hin).
  cbv zeta. rewrite Hcb. repeat split; repeat constructor.
Qed.

(** X10.  A listener that throws on a hit costs the artifact: the [catch]
    block unlinks the cached file and rejects with the error of the
    listener; the store is not touched and nothing is downloaded. *)
Theorem fetchImage_hit_listener_throws (E : env) (uri : string)
    (callback : listener) (w : world) (fi : string) (e : error) :
  getImageInfo uri = Some fi ->
  exists_fails E (generateAbsolutePath fi) = false ->
  generateAbsolutePath fi ∈ files w ->
  callback (Plain {| uri := uri; imagePath := generateAbsolutePath fi |})
    = Some e ->
  let run := fetchImage E uri callback w in
  outcome_of run = Rejected e /\
  (generateAbsolutePath fi ∉ files (world_of run)) /\
  storage (world_of run) = storage w /\
  fetches (trace_of run) = 0%nat.
Proof.
  intros Hfi Hok Hin Hcb run. subst run.
  rewrite (fetchImage_hit_run isUri hash CacheDir E uri callback w fi
             Hfi Hok Hin).
  cbv zeta. rewrite Hcb. unfold outcome_of, world_of, trace_of.
  cbn [fst snd files storage]. repeat split.
  rewrite elem_of_difference, elem_of_singleton. tauto.
Qed.

(** X11.  A download that succeeds for a URI without entry records it:
    when the probe misses, the answer is 200, the listener returns and the
    store answers, the artifact is at the path of the key afterwards and
    the persisted table is the one read with the entry
    [{fileInfo: key, created: now}] added under the URI. *)
Theorem fetchImage_records_download (E : env) (uri : string)
    (callback : listener) (w : world) (fi : string) :
  getImageInfo uri = Some fi ->
  outcome_of (getImagePath E fi w) = None ->
  network E uri = Response 200 ->
  callback (Plain {| uri := uri; imagePath := generateAbsolutePath fi |})
    = None ->
  getItem_error E = None ->
  setItem_error E = None ->
  currentTable (storage w) !! uri = None ->
  let run := fetchImage E uri callback w in
  generateAbsolutePath fi ∈ files (world_of run) /\
  storage (world_of run) =
    Json (<[uri := {| fileInfo := Some fi; created := clock w |}]>
            (currentTable (storage w))).
Proof.
  intros Hfi Hmiss Hnet Hcb Hget Hset Hnew run. subst run.
  rewrite (fetchImage_download_run isUri hash CacheDir E uri callback w fi
             Hfi Hmiss Hnet Hcb).
  cbv zeta. rewrite updateCacheMapping_eq, Hget. cbv zeta.
  cbn [written storage clock].
  rewrite (truthyAt_false _ _ Hnew
             (accepted_not_inherited isUri hash uri fi Hfi)), Hset.
  unfold world_of. cbn [fst snd files storage]. split; [| reflexivity].
  apply elem_of_union_r. now apply elem_of_singleton.
Qed.

(** *** The per-URI operation of the batch *)

Lemma emits_bind {A B} (Q : event -> Prop) (m : M A) (k : A -> M B) :
  emits Q m -> (forall a, emits Q (k a)) -> emits Q (bind m k).
Proof.
  intros Hm Hk w. specialize (Hm w). unfold bind, trace_of in *.
  destruct (m w) as [[a w1] t1]. specialize (Hk a w1). unfold trace_of in Hk.
  destruct (k a w1) as [[b w2] t2]. cbn [snd] in *.
  apply Forall_app. auto.
Qed.

Lemma emits_ret {A} (Q : event -> Prop) (a : A) : emits Q (ret a).
Proof. intros w. constructor. Qed.

Lemma emits_one {A} (Q : event -> Prop) (m : M A) (ev : event) :
  (forall w, trace_of (m w) = [ev]) -> Q ev -> emits Q m.
Proof. intros Hm Hev w. rewrite Hm. now constructor. Qed.

Lemma fsUnlink_trace (E : env) (path : string) (w : world) :
  trace_of (fsUnlink E path w) = [FsUnlink path].
Proof. unfold fsUnlink. now destruct (bool_decide _). Qed.

Ltac quiet :=
  repeat match goal with
    | |- emits _ (ret _) => apply emits_ret
    | |- emits _ (bind _ _) => apply emits_bind; [| intros ?]
    | |- emits _ (match ?x with _ => _ end) => destruct x
    | |- emits _ (fsUnlink _ _) =>
        eapply emits_one; [apply fsUnlink_trace | reflexivity]
    | |- emits _ _ =>
        eapply emits_one; [intros ?; reflexivity | reflexivity]
    end.

Lemma preloadImage_keeps_storage (E : env) (uri : string)
    (callback : listener) (s : stored) :
  preserves (fun w => storage w = s) (preloadImage E uri callback).
Proof.
  unfold ImageCache.preloadImage, preloadImageResume, onError,
    ImageCache.getImagePath, throwErrorOnInCompletedImageFetch.
  frame s I.
Qed.

(** X12.  Unlike [fetchImage], the per-URI operation of the batch keeps
    away from AsyncStorage: [preloadImage] neither reads nor writes the
    store on any path. *)
Theorem preloadImage_leaves_store (E : env) (uri : string)
    (callback : listener) (w : world) :
  storage (world_of (preloadImage E uri callback w)) = storage w /\
  Forall (fun ev => isStoreRequest ev = false)
    (trace_of (preloadImage E uri callback w)).
Proof.
  split.
  - now apply (preloadImage_keeps_storage E uri callback (storage w)).
  - revert w.
    change (emits (fun ev => isStoreRequest ev = false)
              (preloadImage E uri callback)).
    unfold ImageCache.preloadImage, preloadImageResume, onError,
      ImageCache.getImagePath, throwErrorOnInCompletedImageFetch, fsExists,
      httpGet, flush, call, consoleLog, emit.
    quiet.
Qed.

End FetchFacts.

(** ** More on the batch *)

Section BatchFacts.

Variable isUri : string -> bool.
Variable hash : string -> string.
Variable CacheDir : string.

Abbreviation preloadImage := (preloadImage isUri hash CacheDir).
Abbreviation downloadImages := (downloadImages isUri hash CacheDir).
Abbreviation preloadImages := (preloadImages isUri hash CacheDir).

(** The batch, from the per-URI operations: the table it builds, what it
    settles with and what it leaves in the store. *)
Lemma preloadImages_run (E : env) (uris : list string) (listener : listener)
    (w : world) :
  let w1 := world_of (downloadImages E uris listener w) in
  let acc :=
    fold_left (recordResponse (clock w1))
      (map settledValue
         (map (fun uri => outcome_of (preloadImage E uri listener w)) uris))
      (currentTable (storage w1), 0%nat) in
  let run := preloadImages E uris listener w in
  outcome_of run =
    match getItem_error E with
    | Some e => Rejected e
    | None =>
        Resolved {| info := {| tried := length uris; downloaded := acc.2 |};
                    cacheMapping := acc.1 |}
    end /\
  files (world_of run) = files w1 /\
  storage (world_of run) =
    match getItem_error E, setItem_error E with
    | None, None => Json acc.1
    | _, _ => storage w1
    end.
Proof.
  pose proof (downloadImages_outcome isUri hash CacheDir E uris listener w)
    as Hout.
  cbv zeta.
  remember (preloadImages E uris listener w) as run eqn:Hrun.
  unfold ImageCache.preloadImages in Hrun. unfold bind at 1 in Hrun.
  destruct (downloadImages E uris listener w) as [[responses w1] t1].
  unfold outcome_of in Hout at 1. unfold world_of.
  cbn [fst snd] in Hout |- *. subst responses.
  unfold getCurrentCacheMappingFromAsyncStorage, getItem, dateNow, setItem,
    consoleLog, emit, bind, ret in Hrun.
  destruct (getItem_error E); [now subst run |].
  destruct (storage w1) as [| | t] eqn:Hst;
    destruct (setItem_error E); subst run; cbn; auto.
Qed.

(** X13.  The batch settles, and the only thing that makes it reject is
    the read of the store: [preloadImages] rejects with [e] exactly when
    [AsyncStorage.getItem] rejects with [e], and resolves otherwise. *)
Theorem preloadImages_rejects_iff (E : env) (uris : list string)
    (listener : listener) (w : world) :
  outcome_of (preloadImages E uris listener w) <> Pending /\
  forall e,
    outcome_of (preloadImages E uris listener w) = Rejected e <->
    getItem_error E = Some e.
Proof.
  destruct (preloadImages_run E uris listener w) as (-> & _).
  destruct (getItem_error E) as [err |].
  - split; [discriminate |]. intros e. split; congruence.
  - split; [discriminate |]. intros e. split; discriminate.
Qed.

(** X14.  [downloaded] never exceeds [tried]: the fraction a caller shows
    as progress is at most one. *)
Theorem preloadImages_downloaded_le_tried (E : env) (uris : list string)
    (listener : listener) (w : world) (r : preloadResult) :
  outcome_of (preloadImages E uris listener w) = Resolved r ->
  (downloaded (info r) <= tried (info r))%nat /\
  tried (info r) = length uris.
Proof.
  destruct (preloadImages_run E uris listener w) as (-> & _).
  destruct (getItem_error E); [discriminate |].
  intros [= <-]. cbn [info downloaded tried]. split; [| reflexivity].
  rewrite recordResponse_count. cbn [snd].
  unfold resolvedCount. cbn [Nat.add].
  etransitivity; [apply length_filter | now rewrite length_map].
Qed.

(** X15.  The empty batch still writes: [preloadImages([])] resolves with
    [{tried: 0, downloaded: 0}] and the table it read, leaves the files
    alone, and persists that table, so a store without item holds [{}]
    afterwards. *)
Theorem preloadImages_empty (E : env) (listener : listener) (w : world) :
  getItem_error E = None ->
  setItem_error E = None ->
  let run := preloadImages E [] listener w in
  outcome_of run =
    Resolved {| info := {| tried := 0; downloaded := 0 |};
                cacheMapping := currentTable (storage w) |} /\
  files (world_of run) = files w /\
  storage (world_of run) = Json (currentTable (storage w)).
Proof.
  intros Hget Hset run. subst run.
  destruct (preloadImages_run E [] listener w) as (-> & -> & ->).
  now rewrite Hget, Hset.
Qed.

(** *** Entries of URIs outside the batch *)

Lemma preloadImage_resolved_uri (E : env) (uri : string)
    (callback : listener) :
  always (fun o => forall r, o = Resolved r -> r_uri r = uri)
    (preloadImage E uri callback).
Proof.
  unfold ImageCache.preloadImage, preloadImageResume, onError,
    throwErrorOnInCompletedImageFetch.
  repeat match goal with
    | |- always _ (ret _) =>
        apply always_ret; intros ? [= <-]; reflexivity
    | |- always _ (bind _ _) => apply always_bind; intros ?
    | |- always _ (match ?x with _ => _ end) => destruct x
    end.
Qed.

Lemma preserves_mapM {A B} (P : world -> Prop) (f : A -> M B)
    (l : list A) :
  (forall a, preserves P (f a)) -> preserves P (mapM f l).
Proof.
  intros Hf. induction l as [| a l IH]; cbn [mapM].
  - apply preserves_ret.
  - apply preserves_bind; [apply Hf | intros b].
    apply preserves_bind; [exact IH | intros bs; apply preserves_ret].
Qed.

(** Neither phase of [downloadImages] goes near the store. *)
Lemma downloadImages_keeps_storage (E : env) (uris : list string)
    (callback : listener) (s : stored) :
  preserves (fun w => storage w = s) (downloadImages E uris callback).
Proof.
  unfold ImageCache.downloadImages.
  apply preserves_bind; [apply preserves_mapM; intros uri | intros begun].
  - unfold preloadImageStart, onError, ImageCache.getImagePath. frame s I.
  - apply preserves_bind; [| intros promises; apply preserves_ret].
    apply preserves_mapM. intros b.
    unfold loadImage, preloadImageFinish, preloadImageResume, onError,
      throwErrorOnInCompletedImageFetch.
    frame s I.
Qed.

Lemma preloadImage_resolved_in (E : env) (listener : listener)
    (uris : list string) (w : world) :
  Forall (fun o => forall r, o = Resolved r -> r_uri r ∈ uris)
    (map (fun uri => outcome_of (preloadImage E uri listener w)) uris).
Proof.
  apply Forall_map, Forall_forall. intros uri Hin r Hr.
  now rewrite (preloadImage_resolved_uri E uri listener w r Hr).
Qed.

Lemma recordResponse_other (current : Z) (u : string)
    (os : list (outcome response)) (acc : gmap string entry * nat) :
  Forall (fun o => forall r, o = Resolved r -> r_uri r <> u) os ->
  (fold_left (recordResponse current) (map settledValue os) acc).1 !! u =
  acc.1 !! u.
Proof.
  intros Hall. revert acc.
  induction Hall as [| o os Ho _ IH]; intros acc; [reflexivity |].
  cbn [map fold_left]. rewrite IH.
  destruct o as [r | e |]; cbn; try reflexivity.
  apply lookup_insert_ne. now apply Ho.
Qed.

(** X16.  The merge of the batch is confined to its URIs: the table the
    batch resolves with holds, for every URI that is not in the array, the
    entry that was stored before; and when the write is accepted that
    table is what the store holds afterwards. *)
Theorem preloadImages_keeps_other_entries (E : env) (uris : list string)
    (listener : listener) (w : world) (r : preloadResult) (u : string) :
  u ∉ uris ->
  outcome_of (preloadImages E uris listener w) = Resolved r ->
  cacheMapping r !! u = currentTable (storage w) !! u /\
  storage (world_of (preloadImages E uris listener w)) =
    match setItem_error E with
    | None => Json (cacheMapping r)
    | Some _ => storage w
    end.
Proof.
  intros Hu.
  destruct (preloadImages_run E uris listener w) as (-> & _ & ->).
  pose proof (downloadImages_keeps_storage E uris listener (storage w) w
                eq_refl) as Hst.
  pose proof (preloadImage_resolved_in E listener uris w) as Hall.
  destruct (getItem_error E); [discriminate |].
  intros [= <-]. cbn [cacheMapping]. rewrite Hst. split.
  - rewrite recordResponse_other; [reflexivity |].
    eapply Forall_impl; [exact Hall |].
    intros o Ho r' Hr Heq. apply Hu. rewrite <- Heq. now apply Ho.
  - reflexivity.
Qed.

End BatchFacts.

(** ** More on the stored mapping and the sweep *)

Section SweepFacts.

Variable CacheDir : string.
Variable E : env.

Abbreviation clearExpiredImage := (clearExpiredImage CacheDir E).
Abbreviation deleteExpiredImage := (deleteExpiredImage CacheDir E).

(** X17.  [constructCacheMappingFromAsyncStorage] only reads: the world is
    unchanged, and the object it resolves with maps every key of the
    stored table, except [__proto__], to the absolute path of its artifact
    and has no other own property; it is empty when the store cannot be
    read, holds no item or does not parse. *)
Theorem constructCacheMapping_lookup (w : world) (uri : string) :
  let run := constructCacheMappingFromAsyncStorage CacheDir E w in
  world_of run = w /\
  outcome_of run !! uri =
    match getItem_error E with
    | Some _ => None
    | None =>
        if String.eqb uri "__proto__" then None
        else artifactOf CacheDir <$> currentTable (storage w) !! uri
    end.
Proof.
  cbv zeta.
  unfold constructCacheMappingFromAsyncStorage, getItem, consoleLog, emit,
    bind, ret, outcome_of, world_of.
  destruct (getItem_error E); cbn; [split; [reflexivity | apply lookup_empty] |].
  destruct (storage w) as [| | t]; cbn;
    try (split; [reflexivity |
                 rewrite !lookup_empty; now destruct (String.eqb _ _)]).
  split; [reflexivity |].
  apply (map_fold_weak_ind
           (fun r m =>
              r !! uri =
              if String.eqb uri "__proto__" then None
              else artifactOf CacheDir <$> m !! uri)).
  - rewrite !lookup_empty. now destruct (String.eqb _ _).
  - intros i x m r Hfresh IH. unfold absolutePathOf.
    destruct (String.eqb_spec i "__proto__") as [-> | Hproto].
    + rewrite IH. destruct (String.eqb_spec uri "__proto__") as [-> | Hne];
        [reflexivity |].
      now rewrite lookup_insert_ne.
    + destruct (decide (i = uri)) as [-> | Hne].
      * rewrite !lookup_insert_eq.
        destruct (String.eqb_spec uri "__proto__"); [contradiction |].
        reflexivity.
      * now rewrite !lookup_insert_ne.
Qed.

(** *** What the sweep does to the files *)

Lemma deleteExpiredImage_run (now : Z) (expiredPeriod : Q) (item : entry)
    (w : world) :
  let run := deleteExpiredImage now expiredPeriod item w in
  storage (world_of run) = storage w /\
  clock (world_of run) = clock w /\
  (forall p, p ∈ files (world_of run) <->
             p ∈ files w /\
             (expired now expiredPeriod item = true ->
              artifactOf CacheDir item <> p)) /\
  (unlink_missing E = None -> outcome_of run = Resolved tt).
Proof.
  cbv zeta. unfold ImageCache.deleteExpiredImage, expired, artifactOf.
  set (art := generateAbsolutePath CacheDir (jsToString (fileInfo item))).
  destruct (gt (calculateDayGap now (created item)) expiredPeriod).
  - unfold fsUnlink, bind, ret, outcome_of, world_of.
    destruct (bool_decide_reflect (art ∈ files w)) as [Hin | Hout]; cbn.
    + split; [reflexivity |]. split; [reflexivity |]. split; [| reflexivity].
      intros p. rewrite elem_of_difference, elem_of_singleton. split.
      * intros [Hp Hne]. split; [exact Hp |]. intros _ Heq. now apply Hne.
      * intros [Hp Hne]. split; [exact Hp |]. intros Heq.
        now apply Hne.
    + destruct (unlink_missing E); cbn.
      all: split; [reflexivity |]; split; [reflexivity |].
      all: split; [| try reflexivity; discriminate].
      all: intros p; split; [| tauto].
      all: intros Hp; split; [exact Hp |]; intros _ Heq; now subst p.
  - cbn. split; [reflexivity |]. split; [reflexivity |].
    split; [| reflexivity].
    intros p. split; [| tauto]. intros Hp. split; [exact Hp | discriminate].
Qed.

Lemma sweep_run (now : Z) (expiredPeriod : Q) (items : list entry)
    (w : world) :
  let run := mapM (deleteExpiredImage now expiredPeriod) items w in
  storage (world_of run) = storage w /\
  clock (world_of run) = clock w /\
  (forall p, p ∈ files (world_of run) <->
             p ∈ files w /\
             forall item, In item items ->
                          expired now expiredPeriod item = true ->
                          artifactOf CacheDir item <> p) /\
  (unlink_missing E = None ->
   exists l, promiseAll (outcome_of run) = Resolved l).
Proof.
  revert w. induction items as [| item items IH]; intros w.
  - cbn. repeat split; try tauto. eauto.
  - cbv zeta.
    destruct (mapM_cons (deleteExpiredImage now expiredPeriod) item items w)
      as [-> ->].
    destruct (deleteExpiredImage_run now expiredPeriod item w)
      as (Hst1 & Hck1 & Hfiles1 & Hall1).
    cbv zeta in Hst1, Hck1, Hfiles1, Hall1.
    destruct (IH (world_of (deleteExpiredImage now expiredPeriod item w)))
      as (-> & -> & Hfiles & Hall).
    split; [exact Hst1 |]. split; [exact Hck1 |]. split.
    + intros p. rewrite (Hfiles p), (Hfiles1 p). split.
      * intros [[Hp Hfirst] Hrest]. split; [exact Hp |].
        intros it [<- | Hin]; [exact Hfirst | now apply Hrest].
      * intros [Hp Hothers]. split.
        -- split; [exact Hp |]. apply Hothers. now left.
        -- intros it Hin. apply Hothers. now right.
    + intros Hunlink. destruct (Hall Hunlink) as [l Hl].
      cbn [promiseAll]. rewrite (Hall1 Hunlink), Hl. eauto.
Qed.

(** The sweep when the store holds a table. *)
Lemma clearExpiredImage_json (expiredPeriod : Q) (w : world)
    (t : gmap string entry) :
  getItem_error E = None ->
  storage w = Json t ->
  let sweep :=
    mapM (deleteExpiredImage (clock w) expiredPeriod)
      (map snd (map_to_list t)) w in
  let run := clearExpiredImage expiredPeriod w in
  files (world_of run) = files (world_of sweep) /\
  match promiseAll (outcome_of sweep) with
  | Resolved _ =>
      match setItem_error E with
      | Some e =>
          outcome_of run = Rejected e /\ storage (world_of run) = Json t
      | None =>
          outcome_of run = Resolved "removed expired images from cache" /\
          storage (world_of run) = Json (dropEntries (clock w) t)
      end
  | _ => outcome_of run = Pending /\ storage (world_of run) = Json t
  end.
Proof.
  intros Hget Hst. cbv zeta.
  remember (clearExpiredImage expiredPeriod w) as run eqn:Hrun.
  unfold ImageCache.clearExpiredImage in Hrun.
  unfold bind at 1, getItem at 1 in Hrun. rewrite Hget, Hst in Hrun.
  unfold bind at 1, dateNow at 1 in Hrun. unfold bind at 1 in Hrun.
  destruct (sweep_run (clock w) expiredPeriod (map snd (map_to_list t)) w)
    as (Hst1 & _).
  cbv zeta in Hst1. rewrite Hst in Hst1.
  destruct (mapM _ _ w) as [[deleted w1] t1].
  unfold outcome_of, world_of in *. cbn [fst snd] in *.
  destruct (promiseAll deleted).
  - unfold bind, setItem, ret in Hrun.
    destruct (setItem_error E); subst run; cbn; auto.
  - subst run. cbn. auto.
  - subst run. cbn. auto.
Qed.


(** *** How the sweep settles *)

Lemma clearExpiredImage_unread (expiredPeriod : Q) (w : world) (e : error) :
  getItem_error E = Some e ->
  clearExpiredImage expiredPeriod w =
  (Rejected e, w, [StoreGet CACHE_STORAGE]).
Proof.
  intros Hget. unfold ImageCache.clearExpiredImage, getItem, bind, ret.
  now rewrite Hget.
Qed.

(** X19.  The sweep settles whenever the store holds an item and [unlink]
    does not reject for a missing file: the pending promise needs an empty
    store or a rejected [unlink]. *)
Theorem clearExpiredImage_settles (expiredPeriod : Q) (w : world) :
  unlink_missing E = None ->
  storage w <> NoItem ->
  outcome_of (clearExpiredImage expiredPeriod w) <> Pending.
Proof.
  intros Hunlink Hitem.
  destruct (getItem_error E) as [e |] eqn:Hget.
  { now rewrite (clearExpiredImage_unread expiredPeriod w e Hget). }
  destruct (storage w) as [| | t] eqn:Hst; [contradiction | |].
  - unfold ImageCache.clearExpiredImage, getItem, bind, ret.
    rewrite Hget, Hst. discriminate.
  - destruct (clearExpiredImage_json expiredPeriod w t Hget Hst) as [_ Hrun].
    destruct (sweep_run (clock w) expiredPeriod (map snd (map_to_list t)) w)
      as (_ & _ & _ & Hall).
    destruct (Hall Hunlink) as [l Hl]. cbv zeta in Hrun. rewrite Hl in Hrun.
    destruct (setItem_error E); destruct Hrun as [-> _]; discriminate.
Qed.

(** X20.  When the store cannot be read or the item does not parse, the
    sweep rejects after the read and has done nothing else: no file is
    unlinked and nothing is written. *)
Theorem clearExpiredImage_unreadable (expiredPeriod : Q) (w : world) :
  getItem_error E <> None \/ storage w = Garbled ->
  exists e,
    clearExpiredImage expiredPeriod w =
    (Rejected e, w, [StoreGet CACHE_STORAGE]).
Proof.
  intros Hbad. destruct (getItem_error E) as [e |] eqn:Hget.
  - exists e. now apply clearExpiredImage_unread.
  - destruct Hbad as [Hbad | Hst]; [contradiction |].
    unfold ImageCache.clearExpiredImage, getItem, bind, ret.
    rewrite Hget, Hst. eauto.
Qed.

(** X21.  A sweep that resolves never adds or alters an entry: the table
    it persists holds, unchanged, the entries of the stored table whose
    [created] stamp is the current time, and no other key. *)
Theorem clearExpiredImage_table (expiredPeriod : Q) (w : world)
    (t : gmap string entry) (msg : string) :
  storage w = Json t ->
  outcome_of (clearExpiredImage expiredPeriod w) = Resolved msg ->
  msg = "removed expired images from cache"%string /\
  exists t',
    storage (world_of (clearExpiredImage expiredPeriod w)) = Json t' /\
    forall uri,
      t' !! uri =
      match t !! uri with
      | Some item => if created item =? clock w then Some item else None
      | None => None
      end.
Proof.
  intros Hst Hres.
  destruct (getItem_error E) as [e |] eqn:Hget.
  { rewrite (clearExpiredImage_unread expiredPeriod w e Hget) in Hres.
    discriminate. }
  destruct (clearExpiredImage_json expiredPeriod w t Hget Hst) as [_ Hrun].
  cbv zeta in Hrun.
  destruct (promiseAll _);
    [| destruct Hrun as [Hrun _]; rewrite Hrun in Hres; discriminate ..].
  destruct (setItem_error E);
    destruct Hrun as [Hout Hstore]; rewrite Hout in Hres;
    [discriminate |].
  injection Hres as <-. split; [reflexivity |].
  eexists. split; [exact Hstore |]. intros uri. unfold dropEntries.
  destruct (t !! uri) as [item |] eqn:Hin.
  - destruct (Z.eqb_spec (created item) (clock w)) as [Heq | Hne].
    + apply map_lookup_filter_Some. split; [exact Hin |]. cbn [snd].
      rewrite truthy_gap, Heq, Z.eqb_refl. reflexivity.
    + apply map_lookup_filter_None. right. intros item' Hin'.
      rewrite Hin in Hin'. injection Hin' as <-. cbn [snd].
      rewrite truthy_gap.
      destruct (Z.eqb_spec (clock w) (created item)); [congruence | easy].
  - apply map_lookup_filter_None. now left.
Qed.

End SweepFacts.

(** ** The module on Expo's file system *)

Section ExpoFacts.

Variable isUri : string -> bool.
Variable hash : string -> string.
Variable cacheDirectory : string.

Abbreviation getImageInfo := (getImageInfo isUri hash).
Abbreviation xPath := (Expo.generateAbsolutePath cacheDirectory).
Abbreviation xGetImagePath := (Expo.getImagePath cacheDirectory).
Abbreviation xFetchImage := (Expo.fetchImage isUri hash cacheDirectory).
Abbreviation xPreloadImage := (Expo.preloadImage isUri hash cacheDirectory).
Abbreviation xPreloadImageStart :=
  (Expo.preloadImageStart isUri hash cacheDirectory).
Abbreviation xPreloadImageFinish := (Expo.preloadImageFinish cacheDirectory).
Abbreviation xPreloadImages := (Expo.preloadImages isUri hash cacheDirectory).

Lemma Expo_getImagePath_run (E : env) (fi : string) (w : world) :
  xGetImagePath E fi w =
  (if exists_fails E (xPath fi) then None
   else if bool_decide (xPath fi ∈ files w) then Some (xPath fi) else None,
   w, [FsExists (xPath fi)]).
Proof.
  unfold Expo.getImagePath, fsExists, bind.
  destruct (exists_fails E _); [reflexivity |].
  now destruct (bool_decide _).
Qed.

Ltac sets :=
  rewrite ?elem_of_difference, ?elem_of_union, ?elem_of_singleton;
  intuition congruence.

(** The decision table of the Expo [fetchImage] once the key is derived. *)
Lemma Expo_fetchImage_cases (E : env) (uri : string) (callback : listener)
    (w : world) (fi : string) :
  getImageInfo uri = Some fi ->
  let run := xFetchImage E uri callback w in
  let m := {| uri := uri; imagePath := xPath fi |} in
  let failed : outcome uriMap := Rejected ("cannot preload image: " +:+ uri) in
  match outcome_of (xGetImagePath E fi w) with
  | Some _ =>
      outcome_of run =
        match callback (Plain m) with
        | None => Resolved m
        | Some e => Rejected e
        end /\
      world_of run = w /\ xPath fi ∈ files w /\
      fetches (trace_of run) = 0%nat
  | None =>
      outcome_of run =
        match network E uri with
        | Response status =>
            if status =? 200 then
              match callback (Plain m) with
              | None => Resolved m
              | Some _ => failed
              end
            else failed
        | TransportError _ _ => failed
        end /\
      (xPath fi ∈ files (world_of run) <->
       isResolved (outcome_of run) = true) /\
      fetches (trace_of run) = 1%nat
  end.
Proof.
  intros Hfi. cbv zeta.
  remember (xFetchImage E uri callback w) as run eqn:Hrun.
  unfold Expo.fetchImage in Hrun. rewrite Hfi in Hrun.
  unfold bind at 1 in Hrun. rewrite Expo_getImagePath_run in Hrun.
  rewrite Expo_getImagePath_run. unfold outcome_of at 1. cbn [fst].
  destruct (exists_fails E (xPath fi)).
  2: destruct (bool_decide_reflect (xPath fi ∈ files w)) as [Hin | Hout].
  2: { unfold call, bind, ret in Hrun.
       destruct (callback _); subst run; cbn; auto. }
  all: unfold Expo.throwErrorOnInCompletedImageFetch, Expo.deleteAsync,
         httpGet, call, bind, ret in Hrun.
  all: destruct (network E uri) as [status | e partial];
         [destruct (status =? 200); [destruct (callback _) |] |
          destruct partial];
         subst run; unfold outcome_of, world_of, trace_of;
         cbn [fst snd files isResolved app].
  all: split; [reflexivity |]; split;
         [| rewrite ?fetches_cons; reflexivity].
  all: split;
         [intros Hp; first [reflexivity | exfalso; revert Hp; sets]
         | intros Hr; first [discriminate Hr | sets]].
Qed.

(** X22.  In the Expo version every rejection carries the URI, unless it
    is the error a listener threw on a cache hit, that is, the URI has a
    key, the probe found the artifact at the path of the key and the
    listener, called with [{uri, path}], threw that error: the errors of
    the download, transport failures included, are replaced by [cannot
    preload image: <uri>]. *)
Theorem Expo_fetchImage_rejection (E : env) (uri : string)
    (callback : listener) (w : world) (e : error) :
  outcome_of (xFetchImage E uri callback w) = Rejected e ->
  identifies e uri \/
  exists fi,
    getImageInfo uri = Some fi /\
    outcome_of (xGetImagePath E fi w) = Some (xPath fi) /\
    callback (Plain {| uri := uri; imagePath := xPath fi |}) = Some e.
Proof.
  destruct (getImageInfo uri) as [fi |] eqn:Hfi.
  2: { unfold Expo.fetchImage. rewrite Hfi. intros [= <-]. left.
       apply contains_append. }
  pose proof (Expo_fetchImage_cases E uri callback w fi Hfi) as Hcases.
  cbv zeta in Hcases.
  destruct (outcome_of (xGetImagePath E fi w)) as [p |] eqn:Hprobe.
  - destruct Hcases as (-> & _).
    destruct (callback _) eqn:Hcb; intros [= <-]. right. exists fi.
    split; [reflexivity |]. split; [| exact Hcb].
    rewrite Hprobe. rewrite Expo_getImagePath_run in Hprobe.
    unfold outcome_of in Hprobe. cbn [fst] in Hprobe.
    destruct (exists_fails E _); [discriminate |].
    destruct (bool_decide _); congruence.
  - destruct Hcases as (-> & _).
    assert (Hquote : identifies ("cannot preload image: " +:+ uri) uri)
      by apply contains_append.
    destruct (network E uri) as [status | ? ?];
      [destruct (status =? 200); [destruct (callback _) |] |];
      intros [= <-]; auto.
Qed.

(** X23.  In the Expo version, after a call whose probe found nothing the
    artifact is on disk exactly when the call resolved: every failed
    download, by status, by transport or by a throwing listener, is
    cleaned up; and such a call asks for exactly one download. *)
Theorem Expo_fetchImage_after_miss (E : env) (uri : string)
    (callback : listener) (w : world) (fi : string) :
  getImageInfo uri = Some fi ->
  outcome_of (xGetImagePath E fi w) = None ->
  let run := xFetchImage E uri callback w in
  (xPath fi ∈ files (world_of run) <-> isResolved (outcome_of run) = true) /\
  fetches (trace_of run) = 1%nat.
Proof.
  intros Hfi Hmiss.
  pose proof (Expo_fetchImage_cases E uri callback w fi Hfi) as Hcases.
  cbv zeta in Hcases. rewrite Hmiss in Hcases. cbv zeta. tauto.
Qed.

(** X24.  In the Expo version a hit never costs the artifact: when the
    probe finds the artifact the world is unchanged and nothing is
    downloaded, also when the listener throws, and the promise settles
    with what the listener did. *)
Theorem Expo_fetchImage_hit (E : env) (uri : string)
    (callback : listener) (w : world) (fi p : string) :
  getImageInfo uri = Some fi ->
  outcome_of (xGetImagePath E fi w) = Some p ->
  let run := xFetchImage E uri callback w in
  world_of run = w /\
  fetches (trace_of run) = 0%nat /\
  outcome_of run =
    match callback (Plain {| uri := uri; imagePath := xPath fi |}) with
    | None => Resolved {| uri := uri; imagePath := xPath fi |}
    | Some e => Rejected e
    end.
Proof.
  intros Hfi Hhit.
  pose proof (Expo_fetchImage_cases E uri callback w fi Hfi) as Hcases.
  cbv zeta in Hcases. rewrite Hhit in Hcases. cbv zeta. tauto.
Qed.

(** *** The Expo batch *)

Lemma Expo_preloadImage_settles (E : env) (uri : string)
    (callback : listener) :
  always (fun o => o <> Pending) (xPreloadImage E uri callback).
Proof.
  unfold Expo.preloadImage, Expo.preloadImageResume,
    Expo.throwErrorOnInCompletedImageFetch.
  repeat match goal with
    | |- always _ (ret _) => apply always_ret; discriminate
    | |- always _ (bind _ _) => apply always_bind; intros ?
    | |- always _ (match ?x with _ => _ end) => destruct x
    end.
Qed.

Lemma Expo_steady_preloadImageFinish (E : env) (callback : listener)
    (s : Expo.started) :
  steady (Expo.preloadImageFinish cacheDirectory E callback s).
Proof.
  destruct s as [o | uri fi imagePath]; [apply steady_ret |].
  unfold Expo.preloadImageFinish, Expo.preloadImageResume,
    Expo.throwErrorOnInCompletedImageFetch.
  repeat match goal with
    | |- steady (ret _) => apply steady_ret
    | |- steady (bind _ _) => apply steady_bind; [| intros ?]
    | |- steady (match ?x with _ => _ end) => destruct x
    | |- steady (if ?x then _ else _) => destruct x
    | |- steady _ => intros ? ?; reflexivity
    end.
Qed.

Lemma Expo_preloadImageStart_world (E : env) (uri : string) (w : world) :
  world_of (xPreloadImageStart E uri w) = w.
Proof.
  unfold Expo.preloadImageStart.
  destruct (getImageInfo uri) as [fi |]; [| reflexivity].
  rewrite world_of_bind, Expo_getImagePath_run. reflexivity.
Qed.

Lemma Expo_preloadImage_phases (E : env) (uri : string)
    (callback : listener) (w : world) :
  outcome_of (xPreloadImage E uri callback w) =
  outcome_of
    (xPreloadImageFinish E callback (outcome_of (xPreloadImageStart E uri w))
       w).
Proof.
  unfold Expo.preloadImage, Expo.preloadImageStart.
  destruct (getImageInfo uri) as [fi |]; [| reflexivity].
  rewrite !outcome_of_bind, Expo_getImagePath_run. reflexivity.
Qed.

Lemma Expo_loadImage_run (promise : M (outcome response)) (w : world) :
  outcome_of (Expo.loadImage promise w) = swallow (outcome_of (promise w)).
Proof.
  unfold Expo.loadImage. rewrite outcome_of_bind.
  now destruct (outcome_of (promise w)).
Qed.

Lemma Expo_mapM_preloadImageStart (E : env) (uris : list string)
    (w : world) :
  outcome_of (mapM (xPreloadImageStart E) uris w) =
    map (fun uri => outcome_of (xPreloadImageStart E uri w)) uris /\
  world_of (mapM (xPreloadImageStart E) uris w) = w.
Proof.
  induction uris as [| uri uris [IHo IHw]]; [split; reflexivity |].
  destruct (mapM_cons (xPreloadImageStart E) uri uris w) as [-> ->].
  rewrite Expo_preloadImageStart_world. cbn [map]. now rewrite IHo, IHw.
Qed.

Lemma Expo_mapM_loadImage (E : env) (callback : listener)
    (uris : list string) (w w1 : world) :
  outcome_of
    (mapM (fun s => Expo.loadImage (xPreloadImageFinish E callback s))
       (map (fun uri => outcome_of (xPreloadImageStart E uri w)) uris) w1) =
  map swallow
    (map (fun uri => outcome_of (xPreloadImage E uri callback w)) uris).
Proof.
  revert w1. induction uris as [| uri uris IH]; intros w1; [reflexivity |].
  cbn [map].
  destruct (mapM_cons
              (fun s => Expo.loadImage (xPreloadImageFinish E callback s))
              (outcome_of (xPreloadImageStart E uri w))
              (map (fun uri => outcome_of (xPreloadImageStart E uri w)) uris)
              w1) as [-> _].
  rewrite IH, Expo_loadImage_run, Expo_preloadImage_phases. do 2 f_equal.
  apply Expo_steady_preloadImageFinish.
Qed.

Lemma Expo_downloadImages_outcome (E : env) (uris : list string)
    (callback : listener) (w : world) :
  outcome_of (Expo.downloadImages isUri hash cacheDirectory E uris callback w)
  = Resolved
      (map settledValue
         (map (fun uri => outcome_of (xPreloadImage E uri callback w)) uris)).
Proof.
  unfold Expo.downloadImages. rewrite !outcome_of_bind.
  destruct (Expo_mapM_preloadImageStart E uris w) as [-> ->].
  rewrite Expo_mapM_loadImage. unfold ret, outcome_of at 1. cbn [fst].
  apply promiseAll_swallow. apply Forall_map, Forall_forall.
  intros uri _. apply Expo_preloadImage_settles.
Qed.

Lemma countResponse_count (os : list (outcome response)) (n : nat) :
  fold_left Expo.countResponse (map settledValue os) n =
  (n + resolvedCount os)%nat.
Proof.
  revert n. induction os as [| o os IH]; intros n.
  - cbn. unfold resolvedCount. cbn. lia.
  - cbn [map fold_left]. rewrite IH, resolvedCount_cons.
    destruct o; cbn; lia.
Qed.

(** X25.  The Expo batch has no store to fail on: [preloadImages] always
    resolves, with [tried] the length of the array and [downloaded] the
    number of URIs of the array whose operation resolved, each operation
    settling as [preloadImage] does from the world the batch starts in;
    that number is at most [tried]. *)
Theorem Expo_preloadImages_resolves (E : env) (uris : list string)
    (listener : listener) (w : world) :
  exists n,
    outcome_of (xPreloadImages E uris listener w) =
      Resolved {| Expo.summary := {| tried := length uris;
                                     downloaded := n |} |} /\
    n = length
          (filter
             (fun uri =>
                isResolved (outcome_of (xPreloadImage E uri listener w)))
             uris)
    /\ (n <= length uris)%nat.
Proof.
  unfold Expo.preloadImages. rewrite outcome_of_bind.
  rewrite Expo_downloadImages_outcome. unfold ret, outcome_of at 1. cbn [fst].
  rewrite countResponse_count, resolvedCount_map. cbn [Nat.add].
  eexists. split; [reflexivity |]. split; [reflexivity |].
  apply length_filter.
Qed.

End ExpoFacts.

(** ** The properties on sample runs *)

Section Samples.

Import Sample.

Abbreviation getImageInfo := (getImageInfo Sample.isUri Sample.hash).
Abbreviation fetchImage := (fetchImage Sample.isUri Sample.hash Sample.CacheDir).
Abbreviation preloadImages :=
  (preloadImages Sample.isUri Sample.hash Sample.CacheDir).
Abbreviation getImagePath := (getImagePath Sample.CacheDir).
Abbreviation clearExpiredImage := (clearExpiredImage Sample.CacheDir).

(** Key derivation on samples: the extension is matched with its case, the
    segment is what follows the last [/] of the whole URI, query included,
    and a URI without [/] is its own segment. *)
Example getImageInfo_query :
  getImageInfo "https://a.io/x/p.1.jpeg?w=2&h=3"
  = Some "khttps://a.io/x/p.1.jpeg?w=2&h=3.jpeg"%string.
Proof. reflexivity. Qed.

Example getImageInfo_upper_case : getImageInfo "http://a.io/x.PNG" = None.
Proof. reflexivity. Qed.

Example getImageInfo_slash_in_query :
  getImageInfo "http://a.io/x.png?next=/home" = None /\
  getImageInfo "http://a.io/page?img=/x.png"
  = Some "khttp://a.io/page?img=/x.png.png"%string.
Proof. split; reflexivity. Qed.

Example getImageInfo_no_slash :
  getImageInfo "http:x.gif" = Some "khttp:x.gif.gif"%string.
Proof. reflexivity. Qed.

Lemma fetchImage_wrong_format_witness :
  getImageInfo wrong = None /\
  fetchImage online wrong noListener fresh =
  (Rejected "wrong file format: http://a.io/readme.txt", fresh,
   [ConsoleLog "wrong file format: http://a.io/readme.txt"]).
Proof.
  split; [reflexivity |].
  destruct (fetchImage_wrong_format Sample.isUri Sample.hash Sample.CacheDir
              online wrong noListener fresh eq_refl) as (Hout & Hworld & Htrace & _).
  destruct (fetchImage online wrong noListener fresh) as [[o w'] t].
  unfold outcome_of, world_of, trace_of in *. cbn [fst snd] in *.
  now subst.
Defined.

Lemma getImageInfo_good : getImageInfo good = Some goodKey.
Proof. reflexivity. Qed.

Lemma goodPath_eq : generateAbsolutePath Sample.CacheDir goodKey = goodPath.
Proof. reflexivity. Qed.

Lemma fresh_miss (E : env) : outcome_of (getImagePath E goodKey fresh) = None.
Proof.
  apply probe_miss. right. rewrite goodPath_eq. apply not_elem_of_empty.
Qed.

Lemma cached_hit : generateAbsolutePath Sample.CacheDir goodKey ∈ files cached.
Proof.
  rewrite goodPath_eq. unfold cached. cbn [files].
  now apply elem_of_singleton_2.
Qed.

Lemma updateCacheMapping_present_witness :
  storage cached = Json {[good := yesterday]} /\
  ({[good := yesterday]} : gmap string entry) !! good = Some yesterday /\
  world_of (updateCacheMapping online good goodKey cached) = cached /\
  storage (world_of (fetchImage online good noListener cached)) =
    Json {[good := yesterday]}.
Proof.
  assert (Hin : ({[good := yesterday]} : gmap string entry) !! good
                = Some yesterday) by apply lookup_singleton_eq.
  split; [reflexivity |]. split; [exact Hin |].
  destruct (updateCacheMapping_present Sample.isUri Sample.hash
              Sample.CacheDir online good goodKey cached _ _ eq_refl Hin)
    as (Hworld & _ & _ & Hfetch).
  split; [exact Hworld | apply Hfetch].
Defined.

Lemma fetchImage_resolves_despite_store_witness :
  getImageInfo good = Some goodKey /\
  outcome_of (getImagePath storeFull goodKey fresh) = None /\
  network storeFull good = Response 200 /\
  setItem_error storeFull = Some "disk full"%string /\
  outcome_of (fetchImage storeFull good noListener fresh) =
    Resolved {| uri := good; imagePath := goodPath |} /\
  In (ConsoleLog "disk full") (trace_of (fetchImage storeFull good noListener fresh)).
Proof.
  split; [reflexivity |]. split; [apply fresh_miss |].
  split; [reflexivity |]. split; [reflexivity |].
  destruct (fetchImage_resolves_despite_store Sample.isUri Sample.hash
              Sample.CacheDir storeFull good noListener fresh goodKey
              eq_refl (fresh_miss storeFull) eq_refl eq_refl)
    as [Hout Hlog].
  split; [exact Hout |]. apply Hlog.
  vm_compute. reflexivity.
Defined.

Lemma fetchImage_first_resolves :
  outcome_of (fetchImage online good noListener fresh) =
  Resolved {| uri := good; imagePath := goodPath |}.
Proof. vm_compute. reflexivity. Qed.

Lemma fetchImage_twice_witness :
  let run1 := fetchImage online good noListener fresh in
  let run2 := fetchImage online good noListener (world_of run1) in
  outcome_of run1 = Resolved {| uri := good; imagePath := goodPath |} /\
  exists_fails online goodPath = false /\
  goodPath ∈ files (world_of run1) /\
  run2 = (Resolved {| uri := good; imagePath := goodPath |}, world_of run1,
          [FsExists goodPath;
           Called (Plain {| uri := good; imagePath := goodPath |})]) /\
  fetches (trace_of run2) = 0%nat /\
  (fetches (trace_of run1 ++ trace_of run2) <= 1)%nat.
Proof.
  cbv zeta. split; [exact fetchImage_first_resolves |].
  split; [reflexivity |].
  destruct (fetchImage_twice Sample.isUri Sample.hash Sample.CacheDir
              online online good noListener noListener fresh
              {| uri := good; imagePath := goodPath |}
              fetchImage_first_resolves eq_refl eq_refl)
    as (_ & Hfile & Hsecond & Hnone & Htotal).
  auto.
Defined.

(** C6 as stated fails: when the existence probe rejects, [getImagePath]
    returns nothing and the call goes on as after a miss.  On such a
    platform the first call downloads and resolves, and so does the second:
    two downloads for two calls in sequence. *)
Lemma secondCallIsHit_fails :
  ~ secondCallIsHit Sample.isUri Sample.hash Sample.CacheDir.
Proof.
  intros Hclaim.
  destruct (Hclaim Cases.blind good noListener fresh
              {| uri := good; imagePath := goodPath |})
    as (_ & Hnone & _).
  - vm_compute. reflexivity.
  - vm_compute in Hnone. discriminate.
Qed.

(** The two calls on that platform: both resolve, each after a download
    of its own. *)
Example fetchImage_twice_blind :
  let run1 := fetchImage Cases.blind good noListener fresh in
  let run2 := fetchImage Cases.blind good noListener (world_of run1) in
  outcome_of run1 = Resolved {| uri := good; imagePath := goodPath |} /\
  outcome_of run2 = Resolved {| uri := good; imagePath := goodPath |} /\
  fetches (trace_of run1) = 1%nat /\
  fetches (trace_of run2) = 1%nat.
Proof. repeat split; vm_compute; reflexivity. Qed.

(** When the first call fails, nothing is cached and the second call
    downloads again: the bound of one download is that of a first call that
    resolves. *)
Example fetchImage_twice_after_failure :
  let run1 := fetchImage online gone noListener fresh in
  let run2 := fetchImage online gone noListener (world_of run1) in
  isResolved (outcome_of run1) = false /\
  fetches (trace_of run1 ++ trace_of run2) = 2%nat.
Proof. split; vm_compute; reflexivity. Qed.

Lemma fetchImage_failed_download_witness :
  getImageInfo gone = Some "khttp://a.io/gone.gif.gif"%string /\
  network online gone = Response 404 /\
  let run := fetchImage online gone noListener fresh in
  ("/cache/khttp://a.io/gone.gif.gif"%string ∉ files (world_of run)) /\
  outcome_of run = Rejected "cannot preload image: http://a.io/gone.gif" /\
  identifies "cannot preload image: http://a.io/gone.gif" gone.
Proof.
  split; [reflexivity |]. split; [reflexivity |].
  assert (Hmiss : outcome_of (getImagePath online "khttp://a.io/gone.gif.gif"
                                fresh) = None).
  { apply probe_miss. right. apply not_elem_of_empty. }
  assert (Hnot : network online gone <> Response 200) by discriminate.
  exact (fetchImage_failed_download Sample.isUri Sample.hash Sample.CacheDir
           online gone noListener fresh "khttp://a.io/gone.gif.gif"
           eq_refl Hmiss Hnot).
Defined.

(** C8 as stated fails: after a transport failure the promise rejects with
    the error of the transport, here [timed out], which does not quote the
    URI. *)
Lemma failedDownloadCarriesUri_fails :
  ~ failedDownloadCarriesUri Sample.isUri Sample.hash Sample.CacheDir.
Proof.
  intros Hclaim.
  assert (Hmiss : outcome_of (getImagePath online "khttp://a.io/down.jpg.jpg"
                                fresh) = None).
  { apply probe_miss. right. apply not_elem_of_empty. }
  assert (Hnot : network online down <> Response 200) by discriminate.
  destruct (Hclaim online down noListener fresh "khttp://a.io/down.jpg.jpg"
              eq_refl Hmiss Hnot) as (_ & e & Hout & Hquote).
  destruct (fetchImage_transport_run Sample.isUri Sample.hash Sample.CacheDir
              online down noListener fresh "khttp://a.io/down.jpg.jpg"
              "timed out" true eq_refl Hmiss eq_refl) as (Hrej & _).
  rewrite Hrej in Hout. injection Hout as <-.
  unfold identifies in Hquote. vm_compute in Hquote. discriminate.
Qed.

Lemma preloadImages_info_witness :
  getItem_error online = None /\
  exists mapping,
    outcome_of (preloadImages online [good; wrong; down] noListener fresh) =
    Resolved {| info := {| tried := 3; downloaded := 1 |};
                cacheMapping := mapping |}.
Proof.
  split; [reflexivity |].
  destruct (preloadImages_info Sample.isUri Sample.hash Sample.CacheDir
              online [good; wrong; down] noListener fresh eq_refl)
    as [mapping Hout].
  exists mapping. rewrite Hout. vm_compute. reflexivity.
Defined.

(** A URI that comes twice in a batch is downloaded twice: both probes are
    answered before the first download, so neither operation is a hit, and
    a listener that would throw on a hit is not called with one. *)
Example preloadImages_repeated_uri :
  let run := preloadImages online [good; good] Cases.picky fresh in
  info <$> settledValue (outcome_of run) =
    Some {| tried := 2; downloaded := 2 |} /\
  fetches (trace_of run) = 2%nat /\
  filter isRequest (trace_of run) =
    [FsExists goodPath; FsExists goodPath;
     HttpGet good goodPath; HttpGet good goodPath].
Proof. repeat split; vm_compute; reflexivity. Qed.

Lemma preloadImages_hit_loses_fileInfo_witness :
  getImageInfo good = Some goodKey /\
  goodPath ∈ files cached /\
  ({[good := yesterday]} : gmap string entry) !! good =
    Some {| fileInfo := Some goodKey; created := today - day |} /\
  exists t,
    storage (world_of (preloadImages online [good] noListener cached))
      = Json t /\
    t !! good = Some {| fileInfo := None; created := today |}.
Proof.
  split; [reflexivity |]. split; [exact cached_hit |].
  split; [apply lookup_singleton_eq |].
  exact (preloadImages_hit_loses_fileInfo Sample.isUri Sample.hash
           Sample.CacheDir online good noListener cached goodKey
           eq_refl eq_refl cached_hit eq_refl eq_refl eq_refl).
Defined.

Lemma clearExpiredImage_resolves_on_cached :
  outcome_of (clearExpiredImage online defaultExpiredPeriod cached) =
  Resolved "removed expired images from cache"%string.
Proof. vm_compute. reflexivity. Qed.

Lemma clearExpiredImage_drops_unexpired_witness :
  let run := clearExpiredImage online defaultExpiredPeriod cached in
  storage cached = Json {[good := yesterday]} /\
  gt (calculateDayGap (clock cached) (created yesterday))
     defaultExpiredPeriod = false /\
  goodPath ∈ files (world_of run) /\
  exists t', storage (world_of run) = Json t' /\ t' !! good = None.
Proof.
  cbv zeta. split; [reflexivity |]. split; [reflexivity |].
  split.
  - apply (bool_decide_unpack
             (goodPath ∈ files (world_of (clearExpiredImage online
                                            defaultExpiredPeriod cached)))).
    vm_compute. exact I.
  - apply (clearExpiredImage_drops_unexpired Sample.CacheDir online
             defaultExpiredPeriod cached {[good := yesterday]} good yesterday
             "removed expired images from cache" eq_refl).
    + apply lookup_singleton_eq.
    + discriminate.
    + exact clearExpiredImage_resolves_on_cached.
Defined.

Lemma clearExpiredImage_pending_without_item_witness :
  getItem_error online = None /\
  storage fresh = NoItem /\
  outcome_of (clearExpiredImage online defaultExpiredPeriod fresh) = Pending.
Proof.
  split; [reflexivity |]. split; [reflexivity |].
  now rewrite (clearExpiredImage_pending_without_item Sample.CacheDir online
                 defaultExpiredPeriod fresh eq_refl eq_refl).
Defined.

(** The other way into a pending promise: the artifact of an expired entry
    is already gone, [unlink] rejects, and the rejection of the returned
    chain reaches neither [resolve] nor [reject]; the table is not
    written. *)
Example clearExpiredImage_pending_after_unlink_rejects :
  outcome_of (clearExpiredImage online defaultExpiredPeriod stale) = Pending /\
  storage (world_of (clearExpiredImage online defaultExpiredPeriod stale)) =
    storage stale.
Proof. split; vm_compute; reflexivity. Qed.

End Samples.

(** ** The further properties on sample runs *)

Section MoreSamples.

Import Sample Cases KeySpec.

Abbreviation getImageInfo := (getImageInfo Sample.isUri Sample.hash).
Abbreviation fetchImage :=
  (fetchImage Sample.isUri Sample.hash Sample.CacheDir).
Abbreviation preloadImages :=
  (preloadImages Sample.isUri Sample.hash Sample.CacheDir).
Abbreviation getImagePath := (getImagePath Sample.CacheDir).
Abbreviation clearExpiredImage := (clearExpiredImage Sample.CacheDir).
Abbreviation xFetchImage :=
  (Expo.fetchImage Sample.isUri Sample.hash Cases.cacheDirectory).
Abbreviation xGetImagePath := (Expo.getImagePath Cases.cacheDirectory).

Lemma getImageInfo_extension_witness :
  getImageInfo good = Some goodKey /\
  afterLast "." goodKey = afterLast "." (lastSegment good) /\
  afterLast "." goodKey ∈ recognized.
Proof.
  split; [reflexivity |].
  exact (getImageInfo_extension Sample.isUri Sample.hash good goodKey
           eq_refl).
Defined.

Lemma sample_hash_injective (a b : string) :
  Sample.hash a = Sample.hash b -> a = b.
Proof.
  intros H. change (String "k" a = String "k" b) in H. now injection H.
Qed.

Lemma artifact_path_injective_witness :
  (forall a b, Sample.hash a = Sample.hash b -> a = b) /\
  getImageInfo good = Some goodKey /\
  generateAbsolutePath Sample.CacheDir goodKey = goodPath /\
  good = "http://a.io/good.png"%string.
Proof.
  split; [exact sample_hash_injective |]. split; [reflexivity |].
  split; [reflexivity |].
  exact (artifact_path_injective Sample.isUri Sample.hash Sample.CacheDir
           good "http://a.io/good.png" goodKey goodKey
           sample_hash_injective eq_refl eq_refl eq_refl).
Defined.

Lemma fresh_has_no_entry (uri : string) :
  currentTable (storage fresh) !! uri = None.
Proof. apply lookup_empty. Qed.

Lemma good_not_inherited : good ∉ objectPrototypeKeys.
Proof.
  exact (accepted_not_inherited Sample.isUri Sample.hash good goodKey eq_refl).
Qed.


Lemma updateCacheMapping_write_refused_witness :
  getItem_error storeFull = None /\
  setItem_error storeFull = Some "disk full"%string /\
  currentTable (storage fresh) !! good = None /\
  (good ∉ objectPrototypeKeys) /\
  outcome_of (updateCacheMapping storeFull good goodKey fresh)
    = Rejected "disk full" /\
  world_of (updateCacheMapping storeFull good goodKey fresh) = fresh.
Proof.
  split; [reflexivity |]. split; [reflexivity |].
  split; [apply fresh_has_no_entry |]. split; [exact good_not_inherited |].
  exact (updateCacheMapping_write_refused storeFull good goodKey fresh
           "disk full" eq_refl eq_refl (fresh_has_no_entry good)
           good_not_inherited).
Defined.

Lemma updateCacheMapping_first :
  outcome_of (updateCacheMapping online good goodKey fresh) =
  Resolved (<[good := {| fileInfo := Some goodKey; created := today |}]> ∅).
Proof.
  rewrite updateCacheMapping_eq. cbn [getItem_error online]. cbv zeta.
  rewrite (truthyAt_false _ _ (fresh_has_no_entry good) good_not_inherited).
  reflexivity.
Qed.

(** Under a name that objects inherit the test of line 311 finds the
    method of [Object.prototype]: the update resolves with the table it
    read and writes nothing. *)
Example updateCacheMapping_inherited_name :
  updateCacheMapping online "constructor" "k.png" fresh =
  (Resolved ∅, fresh, [StoreGet CACHE_STORAGE]).
Proof. reflexivity. Qed.

Lemma updateCacheMapping_twice_witness :
  let w1 := world_of (updateCacheMapping online good goodKey fresh) in
  outcome_of (updateCacheMapping online good goodKey fresh) =
    Resolved (<[good := {| fileInfo := Some goodKey; created := today |}]> ∅)
  /\
  outcome_of (updateCacheMapping online good "another.png" w1) =
    Resolved (<[good := {| fileInfo := Some goodKey; created := today |}]> ∅)
  /\
  world_of (updateCacheMapping online good "another.png" w1) = w1.
Proof.
  cbv zeta. split; [exact updateCacheMapping_first |].
  destruct (updateCacheMapping_twice online good goodKey "another.png" fresh
              _ updateCacheMapping_first) as (Hout & Hworld & _).
  auto.
Defined.

Lemma fetchImage_other_files_witness :
  getImageInfo good = Some goodKey /\
  otherPath <> generateAbsolutePath Sample.CacheDir goodKey /\
  (otherPath ∈ files (world_of (fetchImage online good noListener overdue))
   <-> otherPath ∈ files overdue).
Proof.
  split; [reflexivity |]. split; [discriminate |].
  apply (fetchImage_other_files Sample.isUri Sample.hash Sample.CacheDir
           online good noListener overdue goodKey otherPath eq_refl).
  discriminate.
Defined.

Lemma fetchImage_hit_is_quiet_witness :
  getImageInfo good = Some goodKey /\
  generateAbsolutePath Sample.CacheDir goodKey ∈ files cached /\
  outcome_of (fetchImage online good noListener cached) =
    Resolved {| uri := good; imagePath := goodPath |} /\
  world_of (fetchImage online good noListener cached) = cached.
Proof.
  split; [reflexivity |]. split; [exact cached_hit |].
  destruct (fetchImage_hit_is_quiet Sample.isUri Sample.hash Sample.CacheDir
              online good noListener cached goodKey
              eq_refl eq_refl cached_hit eq_refl) as (Hout & Hworld & _).
  auto.
Defined.

Lemma fetchImage_hit_listener_throws_witness :
  getImageInfo good = Some goodKey /\
  generateAbsolutePath Sample.CacheDir goodKey ∈ files cached /\
  grumpy (Plain {| uri := good; imagePath := goodPath |})
    = Some "listener failed"%string /\
  outcome_of (fetchImage online good grumpy cached)
    = Rejected "listener failed" /\
  (goodPath ∉ files (world_of (fetchImage online good grumpy cached))).
Proof.
  split; [reflexivity |]. split; [exact cached_hit |].
  split; [reflexivity |].
  destruct (fetchImage_hit_listener_throws Sample.isUri Sample.hash
              Sample.CacheDir online good grumpy cached goodKey
              "listener failed" eq_refl eq_refl cached_hit eq_refl)
    as (Hout & Hgone & _).
  auto.
Defined.

Lemma fetchImage_records_download_witness :
  getImageInfo good = Some goodKey /\
  outcome_of (getImagePath online goodKey fresh) = None /\
  network online good = Response 200 /\
  currentTable (storage fresh) !! good = None /\
  goodPath ∈ files (world_of (fetchImage online good noListener fresh)) /\
  storage (world_of (fetchImage online good noListener fresh)) =
    Json (<[good := {| fileInfo := Some goodKey; created := today |}]> ∅).
Proof.
  split; [reflexivity |]. split; [apply fresh_miss |].
  split; [reflexivity |]. split; [apply fresh_has_no_entry |].
  exact (fetchImage_records_download Sample.isUri Sample.hash Sample.CacheDir
           online good noListener fresh goodKey
           eq_refl (fresh_miss online) eq_refl eq_refl eq_refl eq_refl
           (fresh_has_no_entry good)).
Defined.

Lemma preloadImages_downloaded_le_tried_witness :
  exists r,
    outcome_of (preloadImages online [good; wrong; down] noListener fresh)
      = Resolved r /\
    (downloaded (info r) <= tried (info r))%nat /\
    tried (info r) = 3%nat.
Proof.
  destruct (outcome_of (preloadImages online [good; wrong; down]
                          noListener fresh)) as [r | e |] eqn:Hout.
  - exists r. split; [reflexivity |].
    exact (preloadImages_downloaded_le_tried Sample.isUri Sample.hash
             Sample.CacheDir online [good; wrong; down] noListener fresh r
             Hout).
  - vm_compute in Hout. discriminate.
  - vm_compute in Hout. discriminate.
Defined.

Lemma preloadImages_empty_witness :
  getItem_error online = None /\
  setItem_error online = None /\
  storage fresh = NoItem /\
  storage (world_of (preloadImages online [] noListener fresh)) = Json ∅.
Proof.
  split; [reflexivity |]. split; [reflexivity |]. split; [reflexivity |].
  destruct (preloadImages_empty Sample.isUri Sample.hash Sample.CacheDir
              online noListener fresh eq_refl eq_refl) as (_ & _ & Hst).
  exact Hst.
Defined.

Lemma preloadImages_keeps_other_entries_witness :
  (good ∉ [otherUri]) /\
  exists r,
    outcome_of (preloadImages online [otherUri] noListener cached)
      = Resolved r /\
    cacheMapping r !! good = Some yesterday.
Proof.
  assert (Hout : good ∉ [otherUri]).
  { intros Hin. apply list_elem_of_singleton in Hin. discriminate. }
  split; [exact Hout |].
  destruct (outcome_of (preloadImages online [otherUri] noListener cached))
    as [r | e |] eqn:Hrun.
  - exists r. split; [reflexivity |].
    destruct (preloadImages_keeps_other_entries Sample.isUri Sample.hash
                Sample.CacheDir online [otherUri] noListener cached r good
                Hout Hrun) as [-> _].
    apply lookup_singleton_eq.
  - vm_compute in Hrun. discriminate.
  - vm_compute in Hrun. discriminate.
Defined.



Lemma clearExpiredImage_settles_witness :
  unlink_missing lenient = None /\
  storage stale <> NoItem /\
  outcome_of (clearExpiredImage lenient defaultExpiredPeriod stale)
    <> Pending.
Proof.
  split; [reflexivity |]. split; [discriminate |].
  apply (clearExpiredImage_settles Sample.CacheDir lenient
           defaultExpiredPeriod stale eq_refl).
  discriminate.
Defined.

Lemma clearExpiredImage_unreadable_witness :
  storage garbled = Garbled /\
  exists e,
    clearExpiredImage online defaultExpiredPeriod garbled =
    (Rejected e, garbled, [StoreGet CACHE_STORAGE]).
Proof.
  split; [reflexivity |].
  apply (clearExpiredImage_unreadable Sample.CacheDir online
           defaultExpiredPeriod garbled).
  now right.
Defined.

Lemma clearExpiredImage_table_witness :
  storage cached = Json {[good := yesterday]} /\
  outcome_of (clearExpiredImage online defaultExpiredPeriod cached) =
    Resolved "removed expired images from cache"%string /\
  exists t',
    storage (world_of (clearExpiredImage online defaultExpiredPeriod cached))
      = Json t' /\
    t' !! good = None.
Proof.
  split; [reflexivity |].
  split; [exact clearExpiredImage_resolves_on_cached |].
  destruct (clearExpiredImage_table Sample.CacheDir online
              defaultExpiredPeriod cached {[good := yesterday]} _
              eq_refl clearExpiredImage_resolves_on_cached)
    as (_ & t' & Hst & Hlookup).
  exists t'. split; [exact Hst |].
  rewrite (Hlookup good), lookup_singleton_eq. reflexivity.
Defined.

Lemma Expo_down_rejected :
  outcome_of (xFetchImage online down noListener fresh) =
  Rejected "cannot preload image: http://a.io/down.jpg".
Proof. vm_compute. reflexivity. Qed.

(** A listener that throws on a hit in the Expo version: the rejection
    is the listener's error. *)
Lemma Expo_hit_rejected :
  outcome_of (xFetchImage online good grumpy cached) =
  Rejected "listener failed".
Proof. vm_compute. reflexivity. Qed.

Lemma Expo_fetchImage_rejection_witness :
  outcome_of (xFetchImage online good grumpy cached) =
    Rejected "listener failed" /\
  (identifies "listener failed" good \/
   exists fi,
     getImageInfo good = Some fi /\
     outcome_of (xGetImagePath online fi cached) =
       Some (Expo.generateAbsolutePath Cases.cacheDirectory fi) /\
     grumpy (Plain {| uri := good;
                      imagePath :=
                        Expo.generateAbsolutePath Cases.cacheDirectory fi |})
       = Some "listener failed"%string).
Proof.
  split; [exact Expo_hit_rejected |].
  exact (Expo_fetchImage_rejection Sample.isUri Sample.hash
           Cases.cacheDirectory online good grumpy cached _
           Expo_hit_rejected).
Defined.

Lemma Expo_fresh_miss (E : env) (fi : string) :
  outcome_of (xGetImagePath E fi fresh) = None.
Proof.
  rewrite Expo_getImagePath_run. unfold outcome_of. cbn [fst].
  destruct (exists_fails E _); [reflexivity |].
  rewrite bool_decide_eq_false_2; [reflexivity | apply not_elem_of_empty].
Qed.

Lemma Expo_fetchImage_after_miss_witness :
  getImageInfo gone = Some "khttp://a.io/gone.gif.gif"%string /\
  outcome_of (xGetImagePath online "khttp://a.io/gone.gif.gif" fresh) = None /\
  isResolved (outcome_of (xFetchImage online gone noListener fresh)) = false /\
  ("/cache/khttp://a.io/gone.gif.gif"%string
   ∉ files (world_of (xFetchImage online gone noListener fresh))).
Proof.
  split; [reflexivity |]. split; [apply Expo_fresh_miss |].
  assert (Hrej : isResolved (outcome_of (xFetchImage online gone noListener
                                           fresh)) = false)
    by (vm_compute; reflexivity).
  split; [exact Hrej |].
  destruct (Expo_fetchImage_after_miss Sample.isUri Sample.hash
              Cases.cacheDirectory online gone noListener fresh
              "khttp://a.io/gone.gif.gif" eq_refl
              (Expo_fresh_miss online _)) as [Hiff _].
  intros Hin. apply Hiff in Hin. rewrite Hrej in Hin. discriminate.
Defined.

Lemma Expo_cached_hit :
  outcome_of (xGetImagePath online goodKey cached) = Some goodPath.
Proof.
  rewrite Expo_getImagePath_run. unfold outcome_of. cbn [fst exists_fails online].
  rewrite bool_decide_eq_true_2; [reflexivity |].
  unfold cached. cbn [files]. now apply elem_of_singleton.
Qed.

Lemma Expo_fetchImage_hit_witness :
  getImageInfo good = Some goodKey /\
  outcome_of (xGetImagePath online goodKey cached) = Some goodPath /\
  world_of (xFetchImage online good grumpy cached) = cached /\
  outcome_of (xFetchImage online good grumpy cached)
    = Rejected "listener failed".
Proof.
  split; [reflexivity |]. split; [exact Expo_cached_hit |].
  destruct (Expo_fetchImage_hit Sample.isUri Sample.hash
              Cases.cacheDirectory online good grumpy cached goodKey goodPath
              eq_refl Expo_cached_hit) as (Hworld & _ & Hout).
  auto.
Defined.

End MoreSamples.
